(** * Restorable images and path flattening of ebiten: a shallow embedding

    The development follows [internal/restorable/image.go],
    [internal/restorable/images.go] and [vector/path.go].  Go's [int] is a
    64-bit two's complement integer, [*T] is a pointer into a store, a
    [panic] is a distinguished outcome. *)

From stdpp Require Import base numbers option list gmap sets.

(** ** Go integers *)

Module GoInt.

Definition min_int : Z := (- 2 ^ 63)%Z.
Definition max_int : Z := (2 ^ 63 - 1)%Z.

(** [in_range z]: [z] is a value of Go's [int]. *)
Definition in_range (z : Z) : Prop := (min_int <= z <= max_int)%Z.

(** Two's complement wrap-around of an arithmetic result. *)
Definition wrap (z : Z) : Z := ((z + 2 ^ 63) `mod` 2 ^ 64 - 2 ^ 63)%Z.

Definition add (a b : Z) : Z := wrap (a + b).
Definition sub (a b : Z) : Z := wrap (a - b).

End GoInt.

(** ** Package [image] of the Go standard library: points and rectangles *)

Record Point : Type := Pt { X : Z; Y : Z }.

Record Rectangle : Type := mkRectangle { Min : Point; Max : Point }.

#[global] Instance Point_eq_dec : EqDecision Point.
Proof. solve_decision. Defined.

#[global] Instance Rectangle_eq_dec : EqDecision Rectangle.
Proof. solve_decision. Defined.

(** [image.Rectangle{}], the zero rectangle. *)
Definition ZR : Rectangle := mkRectangle (Pt 0 0) (Pt 0 0).

(** [image.Rect(x0, y0, x1, y1)]: the corners are put in order. *)
Definition Rect (x0 y0 x1 y1 : Z) : Rectangle :=
  let '(x0, x1) := if (x1 <? x0)%Z then (x1, x0) else (x0, x1) in
  let '(y0, y1) := if (y1 <? y0)%Z then (y1, y0) else (y0, y1) in
  mkRectangle (Pt x0 y0) (Pt x1 y1).

(** [r.Dx()] and [r.Dy()]: [r.Max.X - r.Min.X] on machine integers. *)
Definition Rectangle_Dx (r : Rectangle) : Z := GoInt.sub (X (Max r)) (X (Min r)).
Definition Rectangle_Dy (r : Rectangle) : Z := GoInt.sub (Y (Max r)) (Y (Min r)).

(** [r.Empty()]. *)
Definition Rectangle_Empty (r : Rectangle) : bool :=
  (X (Max r) <=? X (Min r))%Z || (Y (Max r) <=? Y (Min r))%Z.

(** [r.In(s)]: every point of [r] is in [s]; an empty [r] is in every [s]. *)
Definition Rectangle_In (r s : Rectangle) : bool :=
  if Rectangle_Empty r then true
  else (X (Min s) <=? X (Min r))%Z && (X (Max r) <=? X (Max s))%Z &&
       (Y (Min s) <=? Y (Min r))%Z && (Y (Max r) <=? Y (Max s))%Z.

(** ** [appendRegionRemovingDuplicates] (image.go)

    The first loop returns as soon as the new region is inside a recorded
    one.  The second loop compacts the slice in place: it reads element
    [idx] of the backing array, and writes the survivors at the running
    index [n].  The slice is then cut at [n] and the region appended. *)

Definition compact_step (region : Rectangle)
    (st : list Rectangle * nat) (idx : nat) : list Rectangle * nat :=
  let '(arr, n) := st in
  match arr !! idx with
  | Some r => if Rectangle_In r region then (arr, n) else (<[n := r]> arr, S n)
  | None => (arr, n)
  end.

Definition appendRegionRemovingDuplicates
    (regions : list Rectangle) (region : Rectangle) : list Rectangle :=
  if existsb (fun r => Rectangle_In region r) regions then regions
  else
    let '(arr, n) :=
      fold_left (compact_step region) (seq 0 (length regions)) (regions, 0%nat) in
    take n arr ++ [region].

(** The regions of [rs] that are not inside [region], as a specification of
    the compaction loop. *)
Definition survivors (region : Rectangle) (rs : list Rectangle) : list Rectangle :=
  List.filter (fun r => negb (Rectangle_In r region)) rs.

(** ** The layers below [restorable]

    [internal/graphics], [internal/graphicsdriver] and the shaders of
    [restorable] are not part of the files at hand; what image.go takes from
    them is gathered in one interface.  Floating point numbers stay
    abstract. *)

(** [float32] and the operations the two packages apply to it. *)
Class Float32 : Type := {
  float32 : Type;
  (** the conversion [float32(n)] of an [int] *)
  float32_of_int : Z -> float32;
  (** the constant [0.5] *)
  float32_half : float32;
  fadd : float32 -> float32 -> float32;
  fsub : float32 -> float32 -> float32;
  fmul : float32 -> float32 -> float32;
  fdiv : float32 -> float32 -> float32;
  fneg : float32 -> float32;
  (** [a > b] and [a != b] *)
  fgt : float32 -> float32 -> bool;
  fne : float32 -> float32 -> bool
}.

(** [restorable.Shader]: image.go only reads its field [shader]. *)
Record Shader (S : Type) : Type := mkShader { shader : S }.
Arguments mkShader {S} shader.
Arguments shader {S} s.

Class Backend {F : Float32} : Type := {
  (** [graphics.ShaderSrcImageCount] *)
  ShaderSrcImageCount : nat;
  (** [graphics.QuadVerticesFromDstAndSrc]: the float written at cell [k] of
      the destination slice, from the twelve arguments and the old float *)
  QuadVertex : list float32 -> nat -> float32 -> float32;
  (** [graphics.QuadIndices()] *)
  QuadIndices : list Z;
  (** [graphicsdriver.Blend] and the two blends image.go names *)
  Blend : Type;
  BlendCopy : Blend;
  BlendClear : Blend;
  (** [graphicsdriver.FillRule] *)
  FillRule : Type;
  FillRuleFillAll : FillRule;
  (** [graphicscommand.Shader] *)
  gcShader : Type;
  (** the package variables [NearestFilterShader] and [clearShader], set
      when the package is initialised *)
  NearestFilterShader : Shader gcShader;
  clearShader : Shader gcShader;
  (** the padded allocation size behind [InternalSize()] *)
  InternalSize : Z -> Z -> Z * Z
}.

(** The vertex floats listed at [Image.DrawTriangles] are numbered 0 to 7:
    [graphics.VertexFloatCount] is 8. *)
Definition VertexFloatCount : nat := 8.

(** [graphics.ManagedBytes], as the bytes it holds. *)
Definition ManagedBytes : Type := list Z.

(** Heap locations of [*Image]; [None] is [nil]. *)
Definition loc : Type := positive.
Abbreviation ptr := (option loc).

Inductive ImageType : Type :=
| ImageTypeRegular
| ImageTypeScreen
| ImageTypeVolatile.

#[global] Instance ImageType_eq_dec : EqDecision ImageType.
Proof. solve_decision. Defined.

(** The [panic]s of the two files, and the run-time fault of a nil
    dereference. *)
Inductive panic : Type :=
| PanicDriverNotReady   (* restorable: graphics driver must be ready at NewImage but not *)
| PanicNonPositive      (* restorable: width/height must be positive *)
| PanicOutOfRange (region : Rectangle)  (* restorable: out of range %v *)
| PanicNilTarget        (* restorable: target must not be nil at makeStaleIfDependingOn *)
| PanicStaleRestore     (* restorable: pixels must not be stale when restoring *)
| PanicNilDeref.        (* invalid memory address or nil pointer dereference *)

(** A Go [error]; [None] is [nil]. *)
Inductive error : Type := Err (code : Z).

Declare Scope go_scope.
Delimit Scope go_scope with go.

Section Restorable.
Context {F : Float32} {B : Backend}.

(** *** The command layer (package [graphicscommand]) *)

(** Modelled from the spec: a [*graphicscommand.Image] handle, with the
    logical size it was created with and its padded internal size. *)
Record gcImage : Type := mkGcImage {
  gc_id : nat;
  gc_width : Z;
  gc_height : Z;
  gc_screen : bool;
  gc_internal : Z * Z
}.

(** Modelled from the spec: the operations recorded in the command queue,
    in the order they were issued. *)
Inductive command : Type :=
| CmdNewImage (img : gcImage)
| CmdDrawTriangles (dst : gcImage) (srcs : list (option gcImage))
    (vertices : list float32) (indices : list Z) (blend : Blend)
    (dstRegion : Rectangle) (srcRegions : list Rectangle) (sh : gcShader)
    (uniforms : list Z) (fillRule : FillRule)
| CmdWritePixels (dst : gcImage) (pixels : ManagedBytes) (region : Rectangle)
| CmdDispose (img : gcImage).

(** *** The data of image.go and images.go *)

(** Modelled from the spec: one record of [pixelsRecords], a region and the
    bytes written to it; the records are kept in insertion order. *)
Record pixelsRecord : Type := mkPixelsRecord {
  rect : Rectangle;
  pix : ManagedBytes
}.

Record Pixels : Type := mkPixels {
  pixelsRecords : option (list pixelsRecord)
}.

Record Image : Type := mkImage {
  image : option gcImage;
  width : Z;
  height : Z;
  basePixels : Pixels;
  stale : bool;
  staleRegions : list Rectangle;
  pixelsCache : option (list (Rectangle * list Z));
  regionsCache : list Rectangle;
  imageType : ImageType
}.

(** [images]: the set of live images and the last invalidation target.  The
    set of shaders is left out, nothing below reads it. *)
Record images : Type := mkImages {
  images_images : gset loc;
  lastTarget : ptr
}.

(** The whole state: the objects behind the [*Image] pointers, the package
    variables [theImages] and [graphicsDriverInitialized], the shaders, and
    the command layer (next free handle and recorded commands). *)
Record state : Type := mkState {
  heap : gmap loc Image;
  theImages : images;
  graphicsDriverInitialized : bool;
  gc_next : nat;
  gc_commands : list command
}.

(** *** Outcomes: a call returns in a new state, or panics *)

Inductive outcome (A : Type) : Type :=
| Ok (s : state) (a : A)
| Panicked (p : panic).
#[global] Arguments Ok {A} s a.
#[global] Arguments Panicked {A} p.

Definition M (A : Type) : Type := state -> outcome A.

Definition ret {A : Type} (a : A) : M A := fun s => Ok s a.

Definition bind {A C : Type} (m : M A) (k : A -> M C) : M C :=
  fun s => match m s with
           | Ok s' a => k a s'
           | Panicked p => Panicked p
           end.

Definition raise {A : Type} (p : panic) : M A := fun _ => Panicked p.
Definition get : M state := fun s => Ok s s.

Notation "x <- m ;; k" := (bind m (fun x => k))
  (at level 100, m at next level, right associativity) : go_scope.
Notation "m ;;; k" := (bind m (fun _ => k))
  (at level 100, right associativity) : go_scope.
Local Open Scope go_scope.

(** Field assignments. *)
Definition set_image (g : option gcImage) (i : Image) : Image :=
  mkImage g (width i) (height i) (basePixels i) (stale i) (staleRegions i)
          (pixelsCache i) (regionsCache i) (imageType i).
Definition set_basePixels (p : Pixels) (i : Image) : Image :=
  mkImage (image i) (width i) (height i) p (stale i) (staleRegions i)
          (pixelsCache i) (regionsCache i) (imageType i).
Definition set_stale (b : bool) (i : Image) : Image :=
  mkImage (image i) (width i) (height i) (basePixels i) b (staleRegions i)
          (pixelsCache i) (regionsCache i) (imageType i).
Definition set_staleRegions (rs : list Rectangle) (i : Image) : Image :=
  mkImage (image i) (width i) (height i) (basePixels i) (stale i) rs
          (pixelsCache i) (regionsCache i) (imageType i).
Definition set_pixelsCache (c : option (list (Rectangle * list Z))) (i : Image) : Image :=
  mkImage (image i) (width i) (height i) (basePixels i) (stale i) (staleRegions i)
          c (regionsCache i) (imageType i).

Definition set_heap (h : gmap loc Image) (s : state) : state :=
  mkState h (theImages s) (graphicsDriverInitialized s) (gc_next s) (gc_commands s).
Definition set_theImages (r : images) (s : state) : state :=
  mkState (heap s) r (graphicsDriverInitialized s) (gc_next s) (gc_commands s).

(** Reading and writing through an [*Image]. *)
Definition load (p : ptr) : M Image := fun s =>
  match p with
  | Some l =>
      match heap s !! l with
      | Some img => Ok s img
      | None => Panicked PanicNilDeref
      end
  | None => Panicked PanicNilDeref
  end.

Definition store (p : ptr) (img : Image) : M unit := fun s =>
  match p with
  | Some l => Ok (set_heap (<[l := img]> (heap s)) s) tt
  | None => Panicked PanicNilDeref
  end.

Definition modify (p : ptr) (f : Image -> Image) : M unit :=
  img <- load p ;; store p (f img).

(** [&Image{...}]: a new object at a location not in use. *)
Definition alloc (img : Image) : M loc := fun s =>
  let l := fresh (dom (heap s)) in
  Ok (set_heap (<[l := img]> (heap s)) s) l.

(** *** Package [graphicscommand] *)

(** Modelled from the spec: an operation is appended to the queue, nothing
    is submitted. *)
Definition gc_emit (c : command) : M unit := fun s =>
  Ok (mkState (heap s) (theImages s) (graphicsDriverInitialized s) (gc_next s)
              (gc_commands s ++ [c])) tt.

(** Modelled from the spec: [graphicscommand.NewImage(width, height, screen)]
    hands out a new handle. *)
Definition gc_NewImage (w h : Z) (screen : bool) : M gcImage := fun s =>
  let g := mkGcImage (gc_next s) w h screen (InternalSize w h) in
  Ok (mkState (heap s) (theImages s) (graphicsDriverInitialized s)
              (S (gc_next s)) (gc_commands s ++ [CmdNewImage g])) g.

(** Modelled from the spec: the methods of a handle; on [nil] they fault. *)
Definition gcImage_InternalSize (g : option gcImage) : M (Z * Z) :=
  match g with
  | Some g => ret (gc_internal g)
  | None => raise PanicNilDeref
  end.

Definition gcImage_DrawTriangles (g : option gcImage)
    (srcs : list (option gcImage)) (vertices : list float32) (indices : list Z)
    (blend : Blend) (dstRegion : Rectangle) (srcRegions : list Rectangle)
    (sh : gcShader) (uniforms : list Z) (fillRule : FillRule) : M unit :=
  match g with
  | Some g => gc_emit (CmdDrawTriangles g srcs vertices indices blend dstRegion
                                        srcRegions sh uniforms fillRule)
  | None => raise PanicNilDeref
  end.

Definition gcImage_WritePixels (g : option gcImage) (pixels : ManagedBytes)
    (region : Rectangle) : M unit :=
  match g with
  | Some g => gc_emit (CmdWritePixels g pixels region)
  | None => raise PanicNilDeref
  end.

Definition gcImage_Dispose (g : option gcImage) : M unit :=
  match g with
  | Some g => gc_emit (CmdDispose g)
  | None => raise PanicNilDeref
  end.

(** *** Package [graphics] *)

(** [make([]float32, n)]. *)
Definition make_float32 (n : nat) : list float32 := replicate n (float32_of_int 0%Z).

(** [graphics.QuadVerticesFromDstAndSrc(dst, ...)] fills [dst] in place; the
    length of the caller's slice stays what it was. *)
Definition QuadVerticesFromDstAndSrc (dst : list float32) (args : list float32)
    : list float32 :=
  imap (QuadVertex args) dst.

(** *** [Pixels] (image.go) *)

(** Modelled from the spec: [pixelsRecords.apply] replays every record on the
    target, in insertion order, one pixel upload per record. *)
Fixpoint pixelsRecords_apply (records : list pixelsRecord) (img : option gcImage)
    : M unit :=
  match records with
  | [] => ret tt
  | r :: records' =>
      gcImage_WritePixels img (pix r) (rect r) ;;;
      pixelsRecords_apply records' img
  end.

(** Modelled from the spec: [pixelsRecords.addOrReplace] does nothing when the
    new region lies inside a recorded one; otherwise it drops the records
    whose region lies inside the new one and appends the new record. *)
Definition pixelsRecords_addOrReplace (records : list pixelsRecord)
    (pixels : ManagedBytes) (region : Rectangle) : list pixelsRecord :=
  if existsb (fun r => Rectangle_In region (rect r)) records then records
  else List.filter (fun r => negb (Rectangle_In (rect r) region)) records
         ++ [mkPixelsRecord region pixels].

(** Modelled from the spec: [pixelsRecords.dispose] releases the buffers. *)
Definition pixelsRecords_dispose (records : list pixelsRecord) : list pixelsRecord := [].

Definition Pixels_Apply (p : Pixels) (img : option gcImage) : M unit :=
  match pixelsRecords p with
  | None => ret tt
  | Some records => pixelsRecords_apply records img
  end.

Definition Pixels_AddOrReplace (p : Pixels) (pixels : ManagedBytes)
    (region : Rectangle) : Pixels :=
  let records := match pixelsRecords p with
                 | None => []
                 | Some records => records
                 end in
  mkPixels (Some (pixelsRecords_addOrReplace records pixels region)).

Definition Pixels_Dispose (p : Pixels) : Pixels :=
  match pixelsRecords p with
  | None => p
  | Some records => mkPixels (Some (pixelsRecords_dispose records))
  end.

(** *** [Image] and [images] *)

Definition Image_makeStale (i : Image) (rect : Rectangle) : Image :=
  set_stale true i.

Definition Image_needsRestoring (i : Image) : bool :=
  bool_decide (imageType i = ImageTypeRegular).

Definition Image_dependsOn (i : Image) (target : ptr) : bool := false.

Definition Image_makeStaleIfDependingOn (target : ptr) (i : Image) : Image :=
  if stale i then i
  else if Image_dependsOn i target then Image_makeStale i ZR
  else i.

(** [images.add]. *)
Definition images_add (img : loc) : M unit := fun s =>
  let r := theImages s in
  Ok (set_theImages (mkImages ({[img]} ∪ images_images r) (lastTarget r)) s) tt.

(** [images.makeStaleIfDependingOn]: the loop visits every registered image;
    a visit changes that image only. *)
Definition images_makeStaleIfDependingOn (target : ptr) : M unit := fun s =>
  match target with
  | None => Panicked PanicNilTarget
  | Some _ =>
      let r := theImages s in
      if decide (lastTarget r = target) then Ok s tt
      else
        let s := set_theImages (mkImages (images_images r) target) s in
        Ok (set_heap (set_fold (fun l h => alter (Image_makeStaleIfDependingOn target) l h)
                               (heap s) (images_images r)) s) tt
  end.

(** [images.remove]. *)
Definition images_remove (img : ptr) : M unit :=
  images_makeStaleIfDependingOn img ;;;
  fun s =>
    match img with
    | Some l =>
        let r := theImages s in
        Ok (set_theImages (mkImages (images_images r ∖ {[l]}) (lastTarget r)) s) tt
    | None => Ok s tt
    end.

Definition clearImage (i : option gcImage) (region : Rectangle) : M unit :=
  let f := float32_of_int in
  let vs := make_float32 (4 * VertexFloatCount) in
  let vs := QuadVerticesFromDstAndSrc vs
              [f (X (Min region)); f (Y (Min region)); f (X (Max region)); f (Y (Max region));
               f 0%Z; f 0%Z; f 0%Z; f 0%Z; f 0%Z; f 0%Z; f 0%Z; f 0%Z] in
  let indices := QuadIndices in
  gcImage_DrawTriangles i (replicate ShaderSrcImageCount None) vs indices BlendClear region
    (replicate ShaderSrcImageCount ZR) (shader clearShader) [] FillRuleFillAll.

Definition NewImage (width height : Z) (imageType : ImageType) : M ptr :=
  s <- get ;;
  if negb (graphicsDriverInitialized s) then raise PanicDriverNotReady
  else
    g <- gc_NewImage width height (bool_decide (imageType = ImageTypeScreen)) ;;
    i <- alloc (mkImage (Some g) width height (mkPixels None) false [] None []
                        imageType) ;;
    img <- load (Some i) ;;
    sz <- gcImage_InternalSize (image img) ;;
    clearImage (image img) (Rect 0 0 (fst sz) (snd sz)) ;;;
    images_add i ;;;
    ret (Some i).

(** The [imgs] array of [DrawTriangles]: [src.image] for every source that
    is not [nil]. *)
Fixpoint srcs_images (srcs : list ptr) : M (list (option gcImage)) :=
  match srcs with
  | [] => ret []
  | None :: srcs' =>
      imgs <- srcs_images srcs' ;; ret (None :: imgs)
  | Some l :: srcs' =>
      src <- load (Some l) ;;
      imgs <- srcs_images srcs' ;; ret (image src :: imgs)
  end.

Definition Image_DrawTriangles (i : ptr) (srcs : list ptr)
    (vertices : list float32) (indices : list Z) (blend : Blend)
    (dstRegion : Rectangle) (srcRegions : list Rectangle)
    (sh : option (Shader gcShader)) (uniforms : list Z) (fillRule : FillRule)
    : M unit :=
  if decide (length vertices = 0%nat) then ret tt
  else
    images_makeStaleIfDependingOn i ;;;
    modify i (fun img => Image_makeStale img dstRegion) ;;;
    imgs <- srcs_images srcs ;;
    img <- load i ;;
    match sh with
    | None => raise PanicNilDeref
    | Some sh =>
        gcImage_DrawTriangles (image img) imgs vertices indices blend dstRegion
          srcRegions (shader sh) uniforms fillRule
    end.

Definition Image_WritePixels (i : ptr) (pixels : option ManagedBytes)
    (region : Rectangle) : M unit :=
  if (Rectangle_Dx region <=? 0)%Z || (Rectangle_Dy region <=? 0)%Z
  then raise PanicNonPositive
  else
    img <- load i ;;
    let w := width img in
    let h := height img in
    if negb (Rectangle_In region (Rect 0 0 w h)) then raise (PanicOutOfRange region)
    else
      images_makeStaleIfDependingOn i ;;;
      img <- load i ;;
      match pixels with
      | Some pixels => gcImage_WritePixels (image img) pixels region
      | None => clearImage (image img) region
      end ;;;
      modify i (fun img => Image_makeStale img region).

Definition Image_ClearPixels (i : ptr) (region : Rectangle) : M unit :=
  Image_WritePixels i None region.

Definition Image_Dispose (i : ptr) : M unit :=
  images_remove i ;;;
  img <- load i ;;
  gcImage_Dispose (image img) ;;;
  modify i (set_image None) ;;;
  modify i (fun img => set_basePixels (Pixels_Dispose (basePixels img)) img) ;;;
  modify i (set_basePixels (mkPixels None)) ;;;
  modify i (set_pixelsCache None) ;;;
  modify i (set_stale false) ;;;
  modify i (fun img => set_staleRegions (take 0 (staleRegions img)) img).

Definition Image_Extend (i : ptr) (width' height' : Z) : M ptr :=
  img <- load i ;;
  if (width img >=? width')%Z && (height img >=? height')%Z then ret i
  else
    newImg <- NewImage width' height' (imageType img) ;;
    let srcs := resize ShaderSrcImageCount None [i] in
    img <- load i ;;
    sz <- gcImage_InternalSize (image img) ;;
    let f := float32_of_int in
    let sw := fst sz in
    let sh := snd sz in
    let vs := make_float32 (4 * VertexFloatCount) in
    let vs := QuadVerticesFromDstAndSrc vs
                [f 0%Z; f 0%Z; f sw; f sh; f 0%Z; f 0%Z; f sw; f sh; f 1%Z; f 1%Z; f 1%Z; f 1%Z] in
    let indices := QuadIndices in
    let dr := Rect 0 0 sw sh in
    Image_DrawTriangles newImg srcs vs indices BlendCopy dr
      (replicate ShaderSrcImageCount ZR) (Some NearestFilterShader) []
      FillRuleFillAll ;;;
    Image_Dispose i ;;;
    ret newImg.

(** [Image.restore]; the driver argument is not used by the body. *)
Definition Image_restore (i : ptr) : M (option error) :=
  img <- load i ;;
  let w := width img in
  let h := height img in
  match imageType img with
  | ImageTypeScreen =>
      g <- gc_NewImage w h true ;;
      modify i (set_image (Some g)) ;;;
      modify i (fun img => set_basePixels (Pixels_Dispose (basePixels img)) img) ;;;
      modify i (set_basePixels (mkPixels None)) ;;;
      modify i (set_stale false) ;;;
      modify i (fun img => set_staleRegions (take 0 (staleRegions img)) img) ;;;
      ret None
  | ImageTypeVolatile =>
      g <- gc_NewImage w h false ;;
      modify i (set_image (Some g)) ;;;
      img <- load i ;;
      sz <- gcImage_InternalSize (image img) ;;
      clearImage (image img) (Rect 0 0 (fst sz) (snd sz)) ;;;
      ret None
  | ImageTypeRegular =>
      img <- load i ;;
      if stale img then raise PanicStaleRestore
      else
        gimg <- gc_NewImage w h false ;;
        sz <- gcImage_InternalSize (Some gimg) ;;
        clearImage (Some gimg) (Rect 0 0 (fst sz) (snd sz)) ;;;
        img <- load i ;;
        Pixels_Apply (basePixels img) (Some gimg) ;;;
        modify i (set_image (Some gimg)) ;;;
        modify i (set_stale false) ;;;
        modify i (fun img => set_staleRegions (take 0 (staleRegions img)) img) ;;;
        ret None
  end.

End Restorable.

(** ** Package [vector]: flattening of Bézier curves (path.go) *)

Module vector.
Section Path.
Context {F : Float32}.

Record point : Type := mkPoint { x : float32; y : float32 }.

Record Path : Type := mkPath {
  segs : list (list point);
  cur : point
}.

(** A call returns with the path it leaves behind, or panics on an index
    out of range. *)
Inductive outcome : Type :=
| Returns (p : Path)
| Panics.

Definition MoveTo (p : Path) (x y : float32) : Path :=
  let cur := mkPoint x y in
  mkPath (segs p ++ [[cur]]) cur.

Definition LineTo (p : Path) (x' y' : float32) : outcome :=
  let segs0 := if decide (length (segs p) = 0%nat) then segs p ++ [[cur p]]
               else segs p in
  match last segs0 with
  | None => Panics
  | Some seg =>
      match last seg with
      | None => Panics
      | Some q =>
          let segs1 :=
            if fne (x q) x' || fne (y q) y'
            then <[(length segs0 - 1)%nat := seg ++ [mkPoint x' y']]> segs0
            else segs0 in
          Returns (mkPath segs1 (mkPoint x' y'))
      end
  end.

Definition isPointCloseToSegment (x y x0 y0 x1 y1 allow : float32) : bool :=
  let a := fsub y1 y0 in
  let b := fneg (fsub x1 x0) in
  let c := fsub (fmul (fsub x1 x0) y0) (fmul (fsub y1 y0) x0) in
  fgt (fmul (fmul allow allow) (fadd (fmul a a) (fmul b b)))
      (fmul (fadd (fadd (fmul a x) (fmul b y)) c)
            (fadd (fadd (fmul a x) (fmul b y)) c)).

(** [(a + b) / 2]. *)
Definition mid (a b : float32) : float32 := fdiv (fadd a b) (float32_of_int 2).

(** [quadTo], with the depth of the Go call stack it may use as [fuel]:
    [None] says that the stack was too short. *)
Fixpoint quadTo (fuel : nat) (p : Path) (x1 y1 x2 y2 : float32) (level : Z)
    : option outcome :=
  match fuel with
  | O => None
  | S fuel =>
      if (level >? 10)%Z then Some (Returns p)
      else
        let x0 := x (cur p) in
        let y0 := y (cur p) in
        if isPointCloseToSegment x1 y1 x0 y0 x2 y2 float32_half
        then Some (LineTo p x2 y2)
        else
          let x01 := mid x0 x1 in
          let y01 := mid y0 y1 in
          let x12 := mid x1 x2 in
          let y12 := mid y1 y2 in
          let x012 := mid x01 x12 in
          let y012 := mid y01 y12 in
          match quadTo fuel p x01 y01 x012 y012 (GoInt.add level 1) with
          | Some (Returns p') => quadTo fuel p' x12 y12 x2 y2 (GoInt.add level 1)
          | r => r
          end
  end.

Definition QuadTo (fuel : nat) (p : Path) (x1 y1 x2 y2 : float32) : option outcome :=
  quadTo fuel p x1 y1 x2 y2 0.

Fixpoint cubicTo (fuel : nat) (p : Path) (x1 y1 x2 y2 x3 y3 : float32) (level : Z)
    : option outcome :=
  match fuel with
  | O => None
  | S fuel =>
      if (level >? 10)%Z then Some (Returns p)
      else
        let x0 := x (cur p) in
        let y0 := y (cur p) in
        if isPointCloseToSegment x1 y1 x0 y0 x3 y3 float32_half &&
           isPointCloseToSegment x2 y2 x0 y0 x3 y3 float32_half
        then Some (LineTo p x3 y3)
        else
          let x01 := mid x0 x1 in
          let y01 := mid y0 y1 in
          let x12 := mid x1 x2 in
          let y12 := mid y1 y2 in
          let x23 := mid x2 x3 in
          let y23 := mid y2 y3 in
          let x012 := mid x01 x12 in
          let y012 := mid y01 y12 in
          let x123 := mid x12 x23 in
          let y123 := mid y12 y23 in
          let x0123 := mid x012 x123 in
          let y0123 := mid y012 y123 in
          match cubicTo fuel p x01 y01 x012 y012 x0123 y0123 (GoInt.add level 1) with
          | Some (Returns p') =>
              cubicTo fuel p' x123 y123 x23 y23 x3 y3 (GoInt.add level 1)
          | r => r
          end
  end.

Definition CubicTo (fuel : nat) (p : Path) (x1 y1 x2 y2 x3 y3 : float32)
    : option outcome :=
  cubicTo fuel p x1 y1 x2 y2 x3 y3 0.

End Path.
End vector.

(** ** An instance to run closed examples with

    Integers stand in for the floats and for the types of the driver; none
    of the results below depends on this choice. *)

Definition exampleFloat32 : Float32 := {|
  float32 := Z;
  float32_of_int := fun n => n;
  float32_half := 0%Z;
  fadd := Z.add;
  fsub := Z.sub;
  fmul := Z.mul;
  fdiv := Z.div;
  fneg := Z.opp;
  fgt := Z.gtb;
  fne := fun a b => negb (Z.eqb a b)
|}.

Definition exampleBackend : @Backend exampleFloat32 := {|
  ShaderSrcImageCount := 4;
  QuadVertex := fun args k old => nth k args old;
  QuadIndices := [0; 1; 2; 1; 2; 3]%Z;
  Blend := nat;
  BlendCopy := 0%nat;
  BlendClear := 1%nat;
  FillRule := nat;
  FillRuleFillAll := 0%nat;
  gcShader := nat;
  NearestFilterShader := mkShader 0%nat;
  clearShader := mkShader 1%nat;
  InternalSize := fun w h => (Z.max w 16, Z.max h 16)
|}.

(** A state with one live image at location 1, of the given type and
    staleness, 4 by 4 pixels, and an initialised driver. *)
Definition exampleHandle : gcImage := mkGcImage 0 4 4 false (16, 16)%Z.

Definition exampleImage (t : ImageType) (st : bool) : Image :=
  mkImage (Some exampleHandle) 4 4 (mkPixels None) st [] None [] t.

Definition exampleState (t : ImageType) (st : bool)
    : @state exampleFloat32 exampleBackend :=
  mkState {[ 1%positive := exampleImage t st ]}
          (mkImages {[ 1%positive ]} None) true 1 [].

(** ** Vocabulary of the statements *)

(** [region] lies within [[0,w) x [0,h)]: every pixel of the region is a
    pixel of the image. *)
Definition region_within (region : Rectangle) (w h : Z) : Prop :=
  forall px py : Z,
    (X (Min region) <= px < X (Max region))%Z ->
    (Y (Min region) <= py < Y (Max region))%Z ->
    (0 <= px < w)%Z /\ (0 <= py < h)%Z.

(** The precondition of [WritePixels] on its region. *)
Definition valid_region (region : Rectangle) (w h : Z) : Prop :=
  (0 < Rectangle_Dx region)%Z /\ (0 < Rectangle_Dy region)%Z /\
  region_within region w h.

(** The two panics of [WritePixels] about its region. *)
Definition region_fault (region : Rectangle) (p : panic) : Prop :=
  p = PanicNonPositive \/ p = PanicOutOfRange region.

(** The records a [Pixels] holds. *)
Definition Pixels_records (p : Pixels) : list pixelsRecord :=
  match pixelsRecords p with
  | None => []
  | Some records => records
  end.

Section Vocabulary.
Context {F : Float32} {B : Backend}.

(** What [WritePixels] hands to the command layer: the upload of the
    buffer, or the draw that clears the region. *)
Definition write_command (g : gcImage) (pixels : option ManagedBytes)
    (region : Rectangle) : command :=
  match pixels with
  | Some pixels => CmdWritePixels g pixels region
  | None =>
      let f := float32_of_int in
      CmdDrawTriangles g (replicate ShaderSrcImageCount None)
        (QuadVerticesFromDstAndSrc (make_float32 (4 * VertexFloatCount))
           [f (X (Min region)); f (Y (Min region)); f (X (Max region));
            f (Y (Max region)); f 0%Z; f 0%Z; f 0%Z; f 0%Z; f 0%Z; f 0%Z;
            f 0%Z; f 0%Z])
        QuadIndices BlendClear region (replicate ShaderSrcImageCount ZR)
        (shader clearShader) [] FillRuleFillAll
  end.

(** The floats [Extend] draws with, for a source of internal size [sz]. *)
Definition extend_vertices (sz : Z * Z) : list float32 :=
  let f := float32_of_int in
  QuadVerticesFromDstAndSrc (make_float32 (4 * VertexFloatCount))
    [f 0%Z; f 0%Z; f (fst sz); f (snd sz); f 0%Z; f 0%Z; f (fst sz); f (snd sz);
     f 1%Z; f 1%Z; f 1%Z; f 1%Z].

(** The fields of an image after [Dispose]. *)
Definition disposed (i : Image) : Image :=
  mkImage None (width i) (height i) (mkPixels None) false [] None
          (regionsCache i) (imageType i).

End Vocabulary.

(** ** Further vocabulary and the rest of path.go *)

(** No region of the list lies inside another region of the list. *)
Fixpoint irredundant (rs : list Rectangle) : Prop :=
  match rs with
  | [] => True
  | r :: rs' =>
      Forall (fun r' => Rectangle_In r r' = false /\ Rectangle_In r' r = false) rs'
      /\ irredundant rs'
  end.

(** The conversion [uint16(n)] and the sum of two [uint16]. *)
Definition uint16 (n : Z) : Z := (n `mod` 2 ^ 16)%Z.
Definition uint16_add (a b : Z) : Z := uint16 (a + b).

(** What path.go takes from package [math], and [float64]. *)
Class Math {F : Float32} : Type := {
  float64 : Type;
  float64_of_float32 : float32 -> float64;
  float32_of_float64 : float64 -> float32;
  (** the untyped constants [2], [3] and [4] as [float64] *)
  float64_of_int : Z -> float64;
  f64sub : float64 -> float64 -> float64;
  f64mul : float64 -> float64 -> float64;
  f64div : float64 -> float64 -> float64;
  Hypot : float64 -> float64 -> float64;
  Acos : float64 -> float64;
  Tan : float64 -> float64;
  Pi : float64
}.

Section PathFilling.
Context {F : Float32}.
Import vector.

(** Every segment of the path holds a point, as the segments that [MoveTo]
    and [LineTo] make do. *)
Definition well_formed (p : Path) : Prop := Forall (fun seg => seg <> []) (segs p).

(** The number of points of a path. *)
Definition points (p : Path) : nat := length (concat (segs p)).

(** The most points a call of [quadTo] or [cubicTo] at [level] can add. *)
Definition flatten_bound (level : Z) : nat :=
  if (level >? 10)%Z then 0%nat else (2 ^ Z.to_nat (10 - level))%nat.

(** [ebiten.Vertex], with the fields path.go sets. *)
Record Vertex : Type := mkVertex {
  DstX : float32;
  DstY : float32;
  SrcX : float32;
  SrcY : float32;
  ColorR : float32;
  ColorG : float32;
  ColorB : float32;
  ColorA : float32
}.

(** The body of the inner loop of [AppendVerticesAndIndicesForFilling], for
    the point [pt] at index [i] of a segment. *)
Definition fill_point (base : Z) (st : list Vertex * list Z) (ipt : nat * point)
    : list Vertex * list Z :=
  let '(vertices, indices) := st in
  let '(i, pt) := ipt in
  let f := float32_of_int in
  let vertices := vertices ++ [mkVertex (x pt) (y pt) (f 0%Z) (f 0%Z)
                                        (f 1%Z) (f 1%Z) (f 1%Z) (f 1%Z)] in
  if (Z.of_nat i <? 2)%Z then (vertices, indices)
  else (vertices,
        indices ++ [base;
                    uint16_add base (uint16 (Z.of_nat i - 1));
                    uint16_add base (uint16 (Z.of_nat i))]).

(** The body of the outer loop, for one segment. *)
Definition fill_seg (st : list Vertex * list Z * Z) (seg : list point)
    : list Vertex * list Z * Z :=
  let '(vi, base) := st in
  if (Z.of_nat (length seg) <? 3)%Z then (vi, base)
  else (fold_left (fill_point base) (imap (fun i pt => (i, pt)) seg) vi,
        uint16_add base (uint16 (Z.of_nat (length seg)))).

Definition AppendVerticesAndIndicesForFilling (p : Path)
    (vertices : list Vertex) (indices : list Z) : list Vertex * list Z :=
  fst (fold_left fill_seg (segs p) (vertices, indices, 0%Z)).

(** The vertex the filling makes of a point. *)
Definition vertex_of (pt : point) : Vertex :=
  let f := float32_of_int in
  mkVertex (x pt) (y pt) (f 0%Z) (f 0%Z) (f 1%Z) (f 1%Z) (f 1%Z) (f 1%Z).

(** The indices the filling adds for the point at index [i] of a segment
    whose first vertex is [base], and for a whole segment of [n] points: a
    fan of triangles around the first vertex. *)
Definition tri_at (base : Z) (i : nat) : list Z :=
  if (Z.of_nat i <? 2)%Z then []
  else [base;
        uint16_add base (uint16 (Z.of_nat i - 1));
        uint16_add base (uint16 (Z.of_nat i))].

Definition fan (base : Z) (k n : nat) : list Z :=
  flat_map (tri_at base) (seq k n).

Fixpoint fans (base : Z) (ss : list (list point)) : list Z :=
  match ss with
  | [] => []
  | seg :: ss' =>
      if (Z.of_nat (length seg) <? 3)%Z then fans base ss'
      else fan base 0 (length seg)
             ++ fans (uint16_add base (uint16 (Z.of_nat (length seg)))) ss'
  end.

(** [p'] is [p] with the points [added] appended to its last segment. *)
Definition appends_to_last (p p' : Path) (added : list point) : Prop :=
  exists init seg,
    segs p = init ++ [seg] /\ segs p' = init ++ [seg ++ added].

(** The segments the filling turns into triangles. *)
Definition filled_segs (p : Path) : list (list point) :=
  List.filter (fun seg => negb (Z.of_nat (length seg) <? 3)%Z) (segs p).

Context {M : Math}.

Definition normalize (x y : float32) : float32 * float32 :=
  let len := float32_of_float64
               (Hypot (float64_of_float32 x) (float64_of_float32 y)) in
  (fdiv x len, fdiv y len).

(** [ArcTo]; [fuel] is the depth of call stack left to [CubicTo]. *)
Definition ArcTo (fuel : nat) (p : Path) (x1 y1 x2 y2 radius : float32)
    : option outcome :=
  let x0 := x (cur p) in
  let y0 := y (cur p) in
  let dx0 := fsub x0 x1 in
  let dy0 := fsub y0 y1 in
  let dx1 := fsub x2 x1 in
  let dy1 := fsub y2 y1 in
  let '(dx0, dy0) := normalize dx0 dy0 in
  let '(dx1, dy1) := normalize dx1 dy1 in
  let theta := Acos (float64_of_float32 (fadd (fmul dx0 dx1) (fmul dy0 dy1))) in
  let dist := fdiv radius
                (float32_of_float64 (Tan (f64div theta (float64_of_int 2)))) in
  let ax0 := fadd x1 (fmul dx0 dist) in
  let ay0 := fadd y1 (fmul dy0 dist) in
  let ax1 := fadd x1 (fmul dx1 dist) in
  let ay1 := fadd y1 (fmul dy1 dist) in
  match LineTo p ax0 ay0 with
  | Panics => Some Panics
  | Returns p =>
      let alpha := f64sub Pi theta in
      let l := fmul radius
                 (float32_of_float64
                    (f64div (f64mul (Tan (f64div alpha (float64_of_int 4)))
                                    (float64_of_int 4))
                            (float64_of_int 3))) in
      let cx0 := fadd ax0 (fmul l (fneg dx0)) in
      let cy0 := fadd ay0 (fmul l (fneg dy0)) in
      let cx1 := fadd ax1 (fmul l (fneg dx1)) in
      let cy1 := fadd ay1 (fmul l (fneg dy1)) in
      match CubicTo fuel p cx0 cy0 cx1 cy1 ax1 ay1 with
      | Some (Returns p) => Some (LineTo p x2 y2)
      | r => r
      end
  end.

End PathFilling.

(** The handle [DrawTriangles] passes on for a source: [nil] for [nil],
    [src.image] otherwise. *)
Definition handle_of (h : gmap loc Image) (src : ptr) : option gcImage :=
  match src with
  | None => None
  | Some l =>
      match h !! l with
      | Some img => image img
      | None => None
      end
  end.

(** A source [DrawTriangles] can read: [nil], or a pointer to an image. *)
Definition readable (h : gmap loc Image) (src : ptr) : Prop :=
  match src with
  | None => True
  | Some l => is_Some (h !! l)
  end.

Section RegistryVocabulary.
Context {F : Float32} {B : Backend}.

(** Every registered image has a handle. *)
Definition live_registry (s : state) : Prop :=
  forall l, l ∈ images_images (theImages s) ->
    exists img g, heap s !! l = Some img /\ image img = Some g.

End RegistryVocabulary.

(** A second instance to run closed examples with: a float is an integer
    or, as [None], a NaN; every operation on a NaN gives a NaN and every
    comparison [>] with a NaN is false. *)
Definition nanFloat32 : Float32 := {|
  float32 := option Z;
  float32_of_int := fun n => Some n;
  float32_half := Some 0%Z;
  fadd := fun a b => match a, b with Some a, Some b => Some (a + b)%Z | _, _ => None end;
  fsub := fun a b => match a, b with Some a, Some b => Some (a - b)%Z | _, _ => None end;
  fmul := fun a b => match a, b with Some a, Some b => Some (a * b)%Z | _, _ => None end;
  fdiv := fun a b => match a, b with Some a, Some b => Some (a `div` b)%Z | _, _ => None end;
  fneg := fun a => match a with Some a => Some (- a)%Z | None => None end;
  fgt := fun a b => match a, b with Some a, Some b => (a >? b)%Z | _, _ => false end;
  fne := fun a b => match a, b with Some a, Some b => negb (a =? b)%Z | _, _ => true end
|}.

Definition exampleMath : @Math exampleFloat32 := {|
  float64 := Z;
  float64_of_float32 := fun a : @float32 exampleFloat32 => (a : Z);
  float32_of_float64 := fun a : Z => (a : @float32 exampleFloat32);
  float64_of_int := fun n => n;
  f64sub := Z.sub;
  f64mul := Z.mul;
  f64div := Z.div;
  Hypot := fun a b => Z.max (Z.abs a) (Z.abs b);
  Acos := fun a => a;
  Tan := fun a => a;
  Pi := 3%Z
|}.

(** * Properties *)

(** ** Machine integers and rectangles *)

Lemma GoInt_wrap_shift (z : Z) :
  exists k : Z, GoInt.wrap z = (z + k * 2 ^ 64)%Z /\ GoInt.in_range (GoInt.wrap z).
Proof.
  unfold GoInt.in_range, GoInt.min_int, GoInt.max_int, GoInt.wrap.
  pose proof (Z.mod_pos_bound (z + 2 ^ 63) (2 ^ 64)) as Hb.
  pose proof (Z.div_mod (z + 2 ^ 63) (2 ^ 64)) as Hd.
  exists (- ((z + 2 ^ 63) `div` 2 ^ 64))%Z. lia.
Qed.

Lemma Rectangle_In_refl (r : Rectangle) : Rectangle_In r r = true.
Proof.
  unfold Rectangle_In. destruct (Rectangle_Empty r); [reflexivity|].
  rewrite !Z.leb_refl. reflexivity.
Qed.

(** ** The compaction loop of [appendRegionRemovingDuplicates] *)

Section Compaction.
Variable region : Rectangle.

Lemma survivors_snoc (rs : list Rectangle) (x : Rectangle) :
  survivors region (rs ++ [x]) =
  survivors region rs ++ (if Rectangle_In x region then [] else [x]).
Proof.
  unfold survivors. rewrite List.filter_app. simpl.
  destruct (Rectangle_In x region); reflexivity.
Qed.

(** Loop invariant: [done] has been scanned, [rest] is still to scan; the
    first [n] cells hold the survivors of [done], the cells from
    [length done] on are untouched. *)
Lemma compact_loop_inv (rest done arr : list Rectangle) (n : nat) :
  take n arr = survivors region done ->
  drop (length done) arr = rest ->
  n <= length done ->
  exists arr' n',
    fold_left (compact_step region) (seq (length done) (length rest)) (arr, n)
      = (arr', n') /\
    take n' arr' = survivors region (done ++ rest).
Proof.
  revert done arr n.
  induction rest as [|x rest IH]; intros done arr n Htake Hdrop Hn.
  - exists arr, n. rewrite app_nil_r. split; [reflexivity | exact Htake].
  - assert (Hx : arr !! length done = Some x).
    { rewrite <- (Nat.add_0_r (length done)), <- lookup_drop, Hdrop.
      reflexivity. }
    assert (Hlen : length done < length arr) by (eapply lookup_lt_Some; eauto).
    cbn [length seq fold_left]. unfold compact_step at 2. rewrite Hx.
    replace (done ++ x :: rest) with ((done ++ [x]) ++ rest)
      by (rewrite <- app_assoc; reflexivity).
    replace (S (length done)) with (length (done ++ [x]))
      by (rewrite length_app; simpl; lia).
    destruct (Rectangle_In x region) eqn:Hin.
    + apply IH.
      * rewrite survivors_snoc, Hin, app_nil_r. exact Htake.
      * rewrite length_app; simpl.
        rewrite Nat.add_1_r.
        erewrite drop_S in Hdrop by eassumption. congruence.
      * rewrite length_app; simpl; lia.
    + apply IH.
      * rewrite survivors_snoc, Hin, <- Htake.
        erewrite take_S_r by (apply list_lookup_insert_eq; lia).
        rewrite take_insert_ge by lia. reflexivity.
      * rewrite length_app; simpl. rewrite Nat.add_1_r.
        rewrite drop_insert_lt by lia.
        erewrite drop_S in Hdrop by eassumption. congruence.
      * rewrite length_app; simpl; lia.
Qed.

(** What the function computes, without the in-place bookkeeping. *)
Lemma appendRegionRemovingDuplicates_spec (regions : list Rectangle) :
  appendRegionRemovingDuplicates regions region =
  if existsb (fun r => Rectangle_In region r) regions then regions
  else survivors region regions ++ [region].
Proof.
  unfold appendRegionRemovingDuplicates.
  destruct (existsb _ regions); [reflexivity|].
  destruct (compact_loop_inv regions [] regions 0) as (arr' & n' & Hf & Ht);
    [reflexivity | reflexivity | simpl; lia |].
  simpl in Hf, Ht. rewrite Hf, Ht. reflexivity.
Qed.

Lemma survivors_sublist (rs : list Rectangle) :
  survivors region rs `sublist_of` rs.
Proof.
  unfold survivors. induction rs as [|r rs IH]; simpl.
  - constructor.
  - destruct (Rectangle_In r region); simpl.
    + apply sublist_cons. exact IH.
    + apply sublist_skip. exact IH.
Qed.

Lemma elem_of_survivors (rs : list Rectangle) (r : Rectangle) :
  r ∈ survivors region rs <-> r ∈ rs /\ Rectangle_In r region = false.
Proof.
  unfold survivors. rewrite !list_elem_of_In, List.filter_In.
  rewrite negb_true_iff. reflexivity.
Qed.
End Compaction.

Lemma existsb_In_false (rs : list Rectangle) (region : Rectangle) :
  existsb (fun r => Rectangle_In region r) rs = false <->
  forall r, r ∈ rs -> Rectangle_In region r = false.
Proof.
  split.
  - intros Hex r Hr. apply list_elem_of_In in Hr.
    destruct (Rectangle_In region r) eqn:E; [|reflexivity].
    rewrite <- Hex. symmetry. apply existsb_exists. eauto.
  - intros Hall. destruct (existsb _ rs) eqn:E; [|reflexivity].
    apply existsb_exists in E as (r & Hr & Hin).
    apply list_elem_of_In in Hr. rewrite (Hall r Hr) in Hin. discriminate.
Qed.

(** C9.  [appendRegionRemovingDuplicates] keeps the insertion order: when
    the new region lies inside a recorded one the list is returned as it
    was; otherwise the result is the recorded regions that are not inside
    the new one, in the order they had, followed by the new region at the
    end. *)
Theorem appendRegionRemovingDuplicates_keeps_order
    (regions : list Rectangle) (region : Rectangle) :
  appendRegionRemovingDuplicates regions region =
    (if existsb (fun r => Rectangle_In region r) regions then regions
     else survivors region regions ++ [region]) /\
  survivors region regions `sublist_of` regions /\
  (forall r, r ∈ survivors region regions <->
             r ∈ regions /\ Rectangle_In r region = false).
Proof.
  split; [apply appendRegionRemovingDuplicates_spec|].
  split; [apply survivors_sublist|].
  intros r. apply elem_of_survivors.
Qed.

(** C4, as stated, fails: with [(0,0)-(10,10)] recorded, inserting
    [(1,1)-(2,2)] and then [(0,0)-(5,5)], which contains it, leaves the list
    as it was, and the list does not contain [(0,0)-(5,5)]. *)
Lemma dedup_contained_insert_counterexample :
  let regions := [Rect 0 0 10 10] in
  let r1 := Rect 1 1 2 2 in
  let r2 := Rect 0 0 5 5 in
  let l := appendRegionRemovingDuplicates
             (appendRegionRemovingDuplicates regions r1) r2 in
  Rectangle_In r1 r2 = true /\ ~ (r2 ∈ l /\ r1 ∉ l).
Proof.
  split; [reflexivity|].
  intros [Hin _]. vm_compute in Hin.
  apply list_elem_of_In in Hin. destruct Hin as [Heq | []]. discriminate Heq.
Qed.

(** C4, amended.  Insert [r1], then [r2] where [r2] contains [r1]: if [r2]
    is not inside any region the list then holds, the list ends with [r2]
    and no longer contains [r1].  Conversely, inserting a region that lies
    inside a region already present leaves the list unchanged. *)
Theorem appendRegionRemovingDuplicates_dedup :
  (forall (regions : list Rectangle) (r1 r2 : Rectangle),
     let l1 := appendRegionRemovingDuplicates regions r1 in
     let l2 := appendRegionRemovingDuplicates l1 r2 in
     Rectangle_In r1 r2 = true ->
     (forall r, r ∈ l1 -> Rectangle_In r2 r = false) ->
     r2 ∈ l2 /\ (r1 ∉ l2) /\ last l2 = Some r2) /\
  (forall (regions : list Rectangle) (r1 r2 : Rectangle),
     r1 ∈ regions ->
     Rectangle_In r2 r1 = true ->
     appendRegionRemovingDuplicates regions r2 = regions).
Proof.
  split.
  - intros regions r1 r2 l1 l2 Hin Hnew.
    assert (Hl2 : l2 = survivors r2 l1 ++ [r2]).
    { unfold l2. rewrite appendRegionRemovingDuplicates_spec.
      apply existsb_In_false in Hnew. rewrite Hnew. reflexivity. }
    rewrite Hl2. split; [|split].
    + apply elem_of_app. right. apply list_elem_of_singleton. reflexivity.
    + intros Hr1. apply elem_of_app in Hr1 as [Hr1 | Hr1].
      * apply elem_of_survivors in Hr1 as [_ Hr1]. congruence.
      * apply list_elem_of_singleton in Hr1. subst r2.
        (* [r1] itself, or a region around it, is in [l1] *)
        unfold l1 in Hnew. rewrite appendRegionRemovingDuplicates_spec in Hnew.
        destruct (existsb (fun r => Rectangle_In r1 r) regions) eqn:E.
        -- apply existsb_exists in E as (r & Hr & Hrin).
           apply list_elem_of_In in Hr. rewrite (Hnew r Hr) in Hrin.
           discriminate.
        -- assert (Hself : Rectangle_In r1 r1 = false).
           { apply Hnew. apply elem_of_app. right.
             apply list_elem_of_singleton. reflexivity. }
           rewrite Rectangle_In_refl in Hself. discriminate.
    + apply last_snoc.
  - intros regions r1 r2 Hr1 Hin.
    rewrite appendRegionRemovingDuplicates_spec.
    assert (E : existsb (fun r => Rectangle_In r2 r) regions = true).
    { apply existsb_exists. exists r1. split; [|exact Hin].
      apply list_elem_of_In. exact Hr1. }
    rewrite E. reflexivity.
Qed.

Lemma appendRegionRemovingDuplicates_dedup_witness :
  (let l2 := appendRegionRemovingDuplicates
               (appendRegionRemovingDuplicates [Rect 5 5 6 6] (Rect 1 1 2 2))
               (Rect 0 0 4 4) in
   Rect 0 0 4 4 ∈ l2 /\ (Rect 1 1 2 2 ∉ l2) /\ last l2 = Some (Rect 0 0 4 4)) /\
  appendRegionRemovingDuplicates [Rect 0 0 4 4] (Rect 1 1 2 2) = [Rect 0 0 4 4].
Proof.
  split.
  - apply (proj1 appendRegionRemovingDuplicates_dedup
             [Rect 5 5 6 6] (Rect 1 1 2 2) (Rect 0 0 4 4)).
    + reflexivity.
    + intros r Hr. vm_compute in Hr.
      apply list_elem_of_In in Hr.
      destruct Hr as [<- | [<- | []]]; reflexivity.
  - apply (proj2 appendRegionRemovingDuplicates_dedup
             [Rect 0 0 4 4] (Rect 0 0 4 4) (Rect 1 1 2 2)).
    + apply list_elem_of_In. left. reflexivity.
    + reflexivity.
Defined.

(** ** Running the operations of [restorable] *)

Section RestorableFacts.
Context {F : Float32} {B : Backend}.
Local Open Scope go_scope.

Lemma bind_Ok {A C : Type} (m : M A) (k : A -> M C) (s s' : state) (a : A) :
  m s = Ok s' a -> bind m k s = k a s'.
Proof. intros H. unfold bind. rewrite H. reflexivity. Qed.

Lemma load_Ok (s : state) (l : loc) (img : Image) :
  heap s !! l = Some img -> load (Some l) s = Ok s img.
Proof. intros H. unfold load. rewrite H. reflexivity. Qed.

Lemma modify_Ok (s : state) (l : loc) (img : Image) (f : Image -> Image) :
  heap s !! l = Some img ->
  modify (Some l) f s = Ok (set_heap (<[l := f img]> (heap s)) s) tt.
Proof.
  intros H. unfold modify. rewrite (bind_Ok _ _ _ _ _ (load_Ok _ _ _ H)).
  reflexivity.
Qed.

(** No image depends on another one: a visit of the invalidation loop
    changes nothing. *)
Lemma Image_makeStaleIfDependingOn_id (target : ptr) (i : Image) :
  Image_makeStaleIfDependingOn target i = i.
Proof.
  unfold Image_makeStaleIfDependingOn, Image_dependsOn.
  destruct (stale i); reflexivity.
Qed.

Lemma invalidation_loop_id (target : ptr) (h : gmap loc Image) (regs : gset loc) :
  set_fold (fun l h => alter (Image_makeStaleIfDependingOn target) l h) h regs = h.
Proof.
  unfold set_fold. simpl.
  induction (elements regs) as [|l ls IH]; simpl; [reflexivity|].
  rewrite IH. apply map_eq. intros k. rewrite lookup_alter.
  destruct (decide (l = k)) as [-> | _]; [|reflexivity].
  destruct (h !! k); simpl; [|reflexivity].
  rewrite Image_makeStaleIfDependingOn_id. reflexivity.
Qed.

(** [theImages.makeStaleIfDependingOn(target)] on a target that is not
    [nil]: the target is remembered, no image changes. *)
Lemma images_makeStaleIfDependingOn_Ok (s : state) (t : loc) :
  images_makeStaleIfDependingOn (Some t) s =
  Ok (set_theImages (mkImages (images_images (theImages s)) (Some t)) s) tt.
Proof.
  unfold images_makeStaleIfDependingOn.
  destruct s as [h [regs lt] init next cmds]; simpl.
  destruct (decide (lt = Some t)) as [-> | _]; [reflexivity|].
  unfold set_heap, set_theImages; simpl.
  rewrite invalidation_loop_id. reflexivity.
Qed.

(** The region checks of [WritePixels] against the vocabulary above. *)
Lemma Rectangle_In_within (region : Rectangle) (w h : Z) :
  (0 <= w)%Z -> (0 <= h)%Z ->
  (Rectangle_In region (Rect 0 0 w h) = true <-> region_within region w h).
Proof.
  intros Hw Hh. unfold Rectangle_In, Rectangle_Empty, Rect, region_within.
  destruct region as [[x0 y0] [x1 y1]]; simpl.
  destruct (w <? 0)%Z eqn:Ew; [lia|].
  destruct (h <? 0)%Z eqn:Eh; [lia|]. simpl.
  destruct (x1 <=? x0)%Z eqn:E1; simpl.
  { split; [intros _ px py; lia | reflexivity]. }
  destruct (y1 <=? y0)%Z eqn:E2; simpl.
  { split; [intros _ px py; lia | reflexivity]. }
  rewrite !andb_true_iff, !Z.leb_le. split.
  - intros Hb px py Hx Hy. lia.
  - intros Hin.
    pose proof (Hin x0 y0 ltac:(lia) ltac:(lia)).
    pose proof (Hin (x1 - 1)%Z (y1 - 1)%Z ltac:(lia) ltac:(lia)). lia.
Qed.

(** [WritePixels] on a live image and a region that passes the two checks:
    the state it returns in. *)
Lemma Image_WritePixels_run (s : state) (l : loc) (img : Image) (g : gcImage)
    (pixels : option ManagedBytes) (region : Rectangle) :
  heap s !! l = Some img ->
  image img = Some g ->
  (Rectangle_Dx region <=? 0)%Z || (Rectangle_Dy region <=? 0)%Z = false ->
  Rectangle_In region (Rect 0 0 (width img) (height img)) = true ->
  Image_WritePixels (Some l) pixels region s =
  Ok (mkState (<[l := set_stale true img]> (heap s))
              (mkImages (images_images (theImages s)) (Some l))
              (graphicsDriverInitialized s) (gc_next s)
              (gc_commands s ++ [write_command g pixels region])) tt.
Proof.
  intros Hl Hg Hpos Hin. unfold Image_WritePixels. rewrite Hpos.
  rewrite (bind_Ok _ _ _ _ _ (load_Ok _ _ _ Hl)). rewrite Hin. simpl.
  rewrite (bind_Ok _ _ _ _ _ (images_makeStaleIfDependingOn_Ok s l)).
  set (s1 := set_theImages _ s).
  assert (Hl1 : heap s1 !! l = Some img) by exact Hl.
  rewrite (bind_Ok _ _ _ _ _ (load_Ok _ _ _ Hl1)). rewrite Hg.
  destruct pixels as [pixels|]; simpl.
  - unfold bind at 1. unfold gcImage_WritePixels, gc_emit.
    rewrite (modify_Ok _ l img) by exact Hl. reflexivity.
  - unfold bind at 1. unfold clearImage, gcImage_DrawTriangles, gc_emit.
    rewrite (modify_Ok _ l img) by exact Hl. reflexivity.
Qed.

(** C1, amended.  [WritePixels] on a live image with a valid region, with a
    buffer or with [nil], returns; the upload of the buffer, or the clearing
    draw, is appended to the commands of the underlying image; the image is
    marked stale and its [basePixels] are what they were.  This holds for
    every image type, the regular one included. *)
Theorem Image_WritePixels_forwards_and_keeps_records
    (s : state) (l : loc) (img : Image) (g : gcImage)
    (pixels : option ManagedBytes) (region : Rectangle) :
  heap s !! l = Some img ->
  image img = Some g ->
  (0 <= width img)%Z -> (0 <= height img)%Z ->
  valid_region region (width img) (height img) ->
  exists s' img',
    Image_WritePixels (Some l) pixels region s = Ok s' tt /\
    heap s' !! l = Some img' /\
    basePixels img' = basePixels img /\
    stale img' = true /\
    gc_commands s' = gc_commands s ++ [write_command g pixels region].
Proof.
  intros Hl Hg Hw Hh (Hdx & Hdy & Hin).
  eexists _, _. split.
  - apply (Image_WritePixels_run s l img g); try assumption.
    + apply orb_false_iff. split; apply Z.leb_gt; assumption.
    + apply Rectangle_In_within; assumption.
  - simpl. rewrite lookup_insert_eq. repeat split; reflexivity.
Qed.

(** C6.  On an image of non-negative size, [WritePixels] takes one of its
    two panics about the region exactly when the region is not valid: when
    its width or height is not positive, or a pixel of it is outside
    [[0,width) x [0,height)].  On a valid region neither is taken. *)
Theorem Image_WritePixels_panics_iff_invalid_region
    (s : state) (l : loc) (img : Image)
    (pixels : option ManagedBytes) (region : Rectangle) :
  heap s !! l = Some img ->
  (0 <= width img)%Z -> (0 <= height img)%Z ->
  ((exists p, Image_WritePixels (Some l) pixels region s = Panicked p /\
              region_fault region p) <->
   ~ valid_region region (width img) (height img)).
Proof.
  intros Hl Hw Hh. unfold valid_region.
  pose proof (Rectangle_In_within region _ _ Hw Hh) as Hwithin.
  unfold Image_WritePixels.
  destruct ((Rectangle_Dx region <=? 0)%Z || (Rectangle_Dy region <=? 0)%Z) eqn:Hpos.
  - split.
    + intros _ (Hdx & Hdy & _).
      apply orb_true_iff in Hpos as [Hp | Hp]; apply Z.leb_le in Hp; lia.
    + intros _. exists PanicNonPositive. split; [reflexivity | left; reflexivity].
  - apply orb_false_iff in Hpos as [Hdx Hdy].
    apply Z.leb_gt in Hdx, Hdy.
    rewrite (bind_Ok _ _ _ _ _ (load_Ok _ _ _ Hl)).
    destruct (Rectangle_In region (Rect 0 0 (width img) (height img))) eqn:Hin; simpl.
    + split.
      * intros (p & Hrun & Hfault). exfalso.
        rewrite (bind_Ok _ _ _ _ _ (images_makeStaleIfDependingOn_Ok s l)) in Hrun.
        set (s1 := set_theImages _ s) in Hrun.
        assert (Hl1 : heap s1 !! l = Some img) by exact Hl.
        rewrite (bind_Ok _ _ _ _ _ (load_Ok _ _ _ Hl1)) in Hrun.
        unfold bind in Hrun.
        destruct (image img) as [g|]; destruct pixels as [pixels|];
          simpl in Hrun;
          try rewrite (modify_Ok _ l img) in Hrun by exact Hl;
          try discriminate Hrun;
          destruct Hfault as [-> | ->]; discriminate Hrun.
      * intros Hinv. exfalso. apply Hinv.
        split; [assumption|]. split; [assumption|].
        apply Hwithin. reflexivity.
    + split.
      * intros _ (_ & _ & Hin'). apply Hwithin in Hin'. congruence.
      * intros _. exists (PanicOutOfRange region).
        split; [reflexivity | right; reflexivity].
Qed.

(** Symbolic execution: one step of a sequence whose head is a read or an
    assignment through a pointer into the heap. *)
Ltac heap_lookup :=
  simpl; first [eassumption | apply lookup_insert_eq].

Ltac run_load :=
  erewrite (bind_Ok (load _)) by (apply load_Ok; heap_lookup); cbv beta.

Ltac run_modify :=
  erewrite (bind_Ok (modify _ _)) by (apply modify_Ok; heap_lookup); cbv beta.

(** Replaying records only appends commands. *)
Lemma pixelsRecords_apply_Ok (records : list pixelsRecord) (g : gcImage) (s : state) :
  exists cmds,
    pixelsRecords_apply records (Some g) s =
    Ok (mkState (heap s) (theImages s) (graphicsDriverInitialized s) (gc_next s)
                (gc_commands s ++ cmds)) tt.
Proof.
  revert s. induction records as [|r records IH]; intros s.
  - exists []. rewrite app_nil_r. destruct s; reflexivity.
  - simpl. unfold bind, gc_emit.
    destruct (IH (mkState (heap s) (theImages s) (graphicsDriverInitialized s)
                          (gc_next s)
                          (gc_commands s ++ [CmdWritePixels g (pix r) (rect r)])))
      as [cmds Hcmds].
    exists (CmdWritePixels g (pix r) (rect r) :: cmds).
    rewrite Hcmds. simpl. rewrite <- app_assoc. reflexivity.
Qed.

Lemma Pixels_Apply_Ok (p : Pixels) (g : gcImage) (s : state) :
  exists cmds,
    Pixels_Apply p (Some g) s =
    Ok (mkState (heap s) (theImages s) (graphicsDriverInitialized s) (gc_next s)
                (gc_commands s ++ cmds)) tt.
Proof.
  unfold Pixels_Apply. destruct (pixelsRecords p) as [records|].
  - apply pixelsRecords_apply_Ok.
  - exists []. rewrite app_nil_r. destruct s; reflexivity.
Qed.

(** [restore] on a regular image that is stale. *)
Lemma Image_restore_stale_regular (s : state) (l : loc) (img : Image) :
  heap s !! l = Some img ->
  imageType img = ImageTypeRegular ->
  stale img = true ->
  Image_restore (Some l) s = Panicked PanicStaleRestore.
Proof.
  intros Hl Ht Hs. unfold Image_restore.
  run_load. rewrite Ht. run_load. rewrite Hs. reflexivity.
Qed.

(** [restore] in every other case: it returns [nil]; the stale flag is
    reset, except on a volatile image, where it is not written. *)
Lemma Image_restore_returns (s : state) (l : loc) (img : Image) :
  heap s !! l = Some img ->
  (imageType img = ImageTypeRegular -> stale img = false) ->
  exists s' img',
    Image_restore (Some l) s = Ok s' None /\
    heap s' !! l = Some img' /\
    stale img' = (if decide (imageType img = ImageTypeVolatile) then stale img
                  else false) /\
    (imageType img <> ImageTypeVolatile -> staleRegions img' = []).
Proof.
  intros Hl Hreg. unfold Image_restore. run_load.
  destruct (imageType img) eqn:Ht.
  - (* regular *)
    run_load. rewrite (Hreg eq_refl).
    unfold bind at 1. unfold gc_NewImage. cbv beta iota zeta.
    unfold bind at 1. unfold gcImage_InternalSize, ret. cbv beta iota.
    unfold bind at 1. unfold clearImage, gcImage_DrawTriangles, gc_emit.
    cbv beta iota zeta.
    run_load.
    match goal with
    | |- context [bind (Pixels_Apply ?p (Some ?g)) _ ?st] =>
        destruct (Pixels_Apply_Ok p g st) as [cmds Hcmds];
        rewrite (bind_Ok _ _ _ _ _ Hcmds)
    end.
    run_modify. run_modify. run_modify.
    eexists _, _. split; [reflexivity|].
    split; [heap_lookup|]. split; [reflexivity|]. intros _. reflexivity.
  - (* screen *)
    unfold bind at 1. unfold gc_NewImage. cbv beta iota zeta.
    run_modify. run_modify. run_modify. run_modify. run_modify.
    eexists _, _. split; [reflexivity|].
    split; [heap_lookup|]. split; [reflexivity|]. intros _. reflexivity.
  - (* volatile *)
    unfold bind at 1. unfold gc_NewImage. cbv beta iota zeta.
    run_modify. run_load. simpl.
    unfold bind, clearImage, gcImage_DrawTriangles, gc_emit, ret. simpl.
    eexists _, _. split; [reflexivity|].
    split; [heap_lookup|]. split; [reflexivity|]. intros Hne. congruence.
Qed.

(** C5.  [restore] on a regular image whose stale flag is set panics with
    the staleness fault; on a regular image that is not stale it returns;
    on a screen or volatile image it returns whatever the stale flag is. *)
Theorem Image_restore_panics_on_stale_regular_only
    (s : state) (l : loc) (img : Image) :
  heap s !! l = Some img ->
  match imageType img with
  | ImageTypeRegular =>
      if stale img then Image_restore (Some l) s = Panicked PanicStaleRestore
      else exists s', Image_restore (Some l) s = Ok s' None
  | ImageTypeScreen | ImageTypeVolatile =>
      exists s', Image_restore (Some l) s = Ok s' None
  end.
Proof.
  intros Hl.
  destruct (imageType img) eqn:Ht.
  - destruct (stale img) eqn:Hs.
    + apply (Image_restore_stale_regular s l img); assumption.
    + destruct (Image_restore_returns s l img Hl) as (s' & img' & Hrun & _).
      { intros _. exact Hs. }
      exists s'. exact Hrun.
  - destruct (Image_restore_returns s l img Hl) as (s' & img' & Hrun & _).
    { rewrite Ht. discriminate. }
    exists s'. exact Hrun.
  - destruct (Image_restore_returns s l img Hl) as (s' & img' & Hrun & _).
    { rewrite Ht. discriminate. }
    exists s'. exact Hrun.
Qed.

(** C2, amended.  When [restore] returns, the stale flag of a regular or
    screen image is false; the stale flag of a volatile image is what it was
    before the call. *)
Theorem Image_restore_stale_after
    (s s' : state) (l : loc) (img : Image) (e : option error) :
  heap s !! l = Some img ->
  Image_restore (Some l) s = Ok s' e ->
  e = None /\
  exists img',
    heap s' !! l = Some img' /\
    stale img' = (if decide (imageType img = ImageTypeVolatile) then stale img
                  else false).
Proof.
  intros Hl Hrun.
  assert (Hreg : imageType img = ImageTypeRegular -> stale img = false).
  { intros Ht. destruct (stale img) eqn:Hs; [|reflexivity].
    rewrite (Image_restore_stale_regular s l img Hl Ht Hs) in Hrun.
    discriminate Hrun. }
  destruct (Image_restore_returns s l img Hl Hreg)
    as (s1 & img' & Hrun1 & Hl1 & Hstale & _).
  rewrite Hrun1 in Hrun. injection Hrun as <- <-.
  split; [reflexivity|]. exists img'. split; assumption.
Qed.

(** C7.  [DrawTriangles] with no vertices returns in the state it was
    called in, whatever the receiver and the other arguments are: no stale
    flag or stale region changes, no invalidation runs, no command is
    issued. *)
Theorem Image_DrawTriangles_no_vertices
    (s : state) (i : ptr) (srcs : list ptr) (indices : list Z) (blend : Blend)
    (dstRegion : Rectangle) (srcRegions : list Rectangle)
    (sh : option (Shader gcShader)) (uniforms : list Z) (fillRule : FillRule) :
  Image_DrawTriangles i srcs [] indices blend dstRegion srcRegions sh uniforms
                      fillRule s = Ok s tt.
Proof. reflexivity. Qed.

(** The sources array [{i}] of [Extend], read by [DrawTriangles]. *)
Lemma srcs_images_nils (k : nat) (s : state) :
  srcs_images (replicate k None) s = Ok s (replicate k None).
Proof.
  induction k as [|k IH]; simpl; [reflexivity|].
  rewrite (bind_Ok _ _ _ _ _ IH). reflexivity.
Qed.

Lemma srcs_images_self (s : state) (l : loc) (img : Image) (k : nat) :
  heap s !! l = Some img ->
  srcs_images (resize k None [Some l]) s = Ok s (resize k None [image img]).
Proof.
  intros Hl. destruct k as [|k]; [reflexivity|].
  cbn [resize srcs_images].
  rewrite (bind_Ok _ _ _ _ _ (load_Ok _ _ _ Hl)). rewrite !resize_nil.
  rewrite (bind_Ok _ _ _ _ _ (srcs_images_nils k s)). reflexivity.
Qed.

(** The vertices of a quad: four vertices of [VertexFloatCount] floats. *)
Lemma quad_vertices_length (args : list float32) :
  length (QuadVerticesFromDstAndSrc (make_float32 (4 * VertexFloatCount)) args)
  = 32%nat.
Proof.
  unfold QuadVerticesFromDstAndSrc, make_float32.
  rewrite length_imap, length_replicate. reflexivity.
Qed.

(** [NewImage] with the driver ready. *)
Lemma NewImage_run (s : state) (w h : Z) (t : ImageType) :
  graphicsDriverInitialized s = true ->
  let n := fresh (dom (heap s)) in
  let g := mkGcImage (gc_next s) w h (bool_decide (t = ImageTypeScreen))
                     (InternalSize w h) in
  NewImage w h t s =
  Ok (mkState (<[n := mkImage (Some g) w h (mkPixels None) false [] None [] t]>
                 (heap s))
              (mkImages ({[n]} ∪ images_images (theImages s))
                        (lastTarget (theImages s)))
              true (S (gc_next s))
              (gc_commands s ++
                 [CmdNewImage g;
                  write_command g None
                    (Rect 0 0 (fst (InternalSize w h)) (snd (InternalSize w h)))]))
     (Some n).
Proof.
  intros Hinit n g. unfold NewImage.
  unfold bind, get, gc_NewImage, alloc, load, gcImage_InternalSize, ret,
    clearImage, gcImage_DrawTriangles, gc_emit, images_add, set_theImages,
    set_heap.
  rewrite Hinit. simpl. rewrite lookup_insert_eq. simpl.
  rewrite Hinit, <- app_assoc. reflexivity.
Qed.

(** [Dispose] on a live image. *)
Lemma Image_Dispose_run (s : state) (l : loc) (img : Image) (g : gcImage) :
  heap s !! l = Some img ->
  image img = Some g ->
  Image_Dispose (Some l) s =
  Ok (mkState (<[l := disposed img]> (heap s))
              (mkImages (images_images (theImages s) ∖ {[l]}) (Some l))
              (graphicsDriverInitialized s) (gc_next s)
              (gc_commands s ++ [CmdDispose g])) tt.
Proof.
  intros Hl Hg. unfold Image_Dispose, images_remove.
  unfold bind at 1. unfold bind at 1.
  rewrite images_makeStaleIfDependingOn_Ok. cbv beta iota.
  unfold set_theImages at 1. simpl theImages. simpl images_images.
  simpl lastTarget. unfold set_theImages.
  run_load. rewrite Hg.
  unfold bind at 1. unfold gcImage_Dispose, gc_emit. cbv beta iota. simpl heap.
  simpl theImages. simpl graphicsDriverInitialized. simpl gc_next.
  simpl gc_commands.
  run_modify. run_modify. run_modify. run_modify. run_modify.
  erewrite modify_Ok by heap_lookup.
  unfold set_heap. simpl. rewrite !insert_insert_eq.
  unfold disposed. reflexivity.
Qed.

(** [Extend] to a size the image does not cover, on a live image with the
    driver ready: the state it returns in. *)
Lemma Image_Extend_run (s : state) (l : loc) (img : Image) (g0 : gcImage) (w h : Z) :
  heap s !! l = Some img ->
  image img = Some g0 ->
  graphicsDriverInitialized s = true ->
  (width img >=? w)%Z && (height img >=? h)%Z = false ->
  let n := fresh (dom (heap s)) in
  let g := mkGcImage (gc_next s) w h
             (bool_decide (imageType img = ImageTypeScreen)) (InternalSize w h) in
  Image_Extend (Some l) w h s =
  Ok (mkState
        (<[l := disposed img]>
           (<[n := mkImage (Some g) w h (mkPixels None) true [] None []
                           (imageType img)]> (heap s)))
        (mkImages (({[n]} ∪ images_images (theImages s)) ∖ {[l]}) (Some l))
        true (S (gc_next s))
        (gc_commands s ++
           [CmdNewImage g;
            write_command g None
              (Rect 0 0 (fst (InternalSize w h)) (snd (InternalSize w h)));
            CmdDrawTriangles g (resize ShaderSrcImageCount None [Some g0])
              (extend_vertices (gc_internal g0)) QuadIndices BlendCopy
              (Rect 0 0 (fst (gc_internal g0)) (snd (gc_internal g0)))
              (replicate ShaderSrcImageCount ZR) (shader NearestFilterShader)
              [] FillRuleFillAll;
            CmdDispose g0]))
     (Some n).
Proof.
  intros Hl Hg0 Hinit Hsize n g.
  assert (Hfresh : heap s !! n = None).
  { apply not_elem_of_dom. apply is_fresh. }
  assert (Hne : n <> l).
  { intros ->. rewrite Hl in Hfresh. discriminate. }
  unfold Image_Extend. run_load. rewrite Hsize.
  rewrite (bind_Ok _ _ _ _ _ (NewImage_run s w h (imageType img) Hinit)).
  fold n. fold g.
  set (s1 := mkState _ _ _ _ _).
  assert (Hl1 : heap s1 !! l = Some img).
  { unfold s1; simpl. rewrite lookup_insert_ne by exact Hne. exact Hl. }
  rewrite (bind_Ok _ _ _ _ _ (load_Ok _ _ _ Hl1)). rewrite Hg0.
  unfold bind at 1. unfold gcImage_InternalSize, ret. cbv beta iota.
  (* the copy *)
  unfold Image_DrawTriangles.
  fold (extend_vertices (gc_internal g0)).
  destruct (decide (length (extend_vertices (gc_internal g0)) = 0%nat)) as [Hlen|_].
  { unfold extend_vertices in Hlen. rewrite quad_vertices_length in Hlen.
    discriminate Hlen. }
  unfold bind at 1. unfold bind at 1.
  rewrite images_makeStaleIfDependingOn_Ok. cbv beta iota.
  set (s2 := set_theImages _ s1).
  assert (Hn2 : heap s2 !! n = Some (mkImage (Some g) w h (mkPixels None) false []
                                            None [] (imageType img))).
  { unfold s2, s1; simpl. apply lookup_insert_eq. }
  rewrite (bind_Ok _ _ _ _ _ (modify_Ok s2 n _ _ Hn2)). cbv beta.
  set (s3 := set_heap _ s2).
  assert (Hl3 : heap s3 !! l = Some img).
  { unfold s3, s2, s1; simpl. rewrite !lookup_insert_ne by exact Hne. exact Hl. }
  rewrite (bind_Ok _ _ _ _ _ (srcs_images_self s3 l img _ Hl3)). rewrite Hg0.
  assert (Hn3 : heap s3 !! n = Some (mkImage (Some g) w h (mkPixels None) true []
                                            None [] (imageType img))).
  { unfold s3; simpl. apply lookup_insert_eq. }
  rewrite (bind_Ok _ _ _ _ _ (load_Ok _ _ _ Hn3)).
  unfold bind at 1. unfold gcImage_DrawTriangles, gc_emit. cbv beta iota.
  cbv beta iota delta [image].
  (* the disposal of the original *)
  match goal with
  | |- context [Image_Dispose (Some l) ?st] => set (s4 := st)
  end.
  assert (Hl4 : heap s4 !! l = Some img) by exact Hl3.
  rewrite (Image_Dispose_run s4 l img g0 Hl4 Hg0).
  unfold ret, s4, s3, s2, s1, set_heap, set_theImages. simpl.
  rewrite insert_insert_eq, <- !app_assoc. reflexivity.
Qed.

(** C8.  When the image covers the requested size, [Extend] returns the
    pointer it was called on, in the state it was called in.  Otherwise, on
    a live image with the driver ready, it returns a new pointer: a new
    image of the requested size and of the same type has been constructed
    and registered, the contents have been copied by a draw from the old
    handle to the new one, and the original has been disposed. *)
Theorem Image_Extend_covered_or_replaced
    (s : state) (l : loc) (img : Image) (w h : Z) :
  heap s !! l = Some img ->
  ((w <= width img)%Z /\ (h <= height img)%Z ->
   Image_Extend (Some l) w h s = Ok s (Some l)) /\
  (~ ((w <= width img)%Z /\ (h <= height img)%Z) ->
   graphicsDriverInitialized s = true ->
   forall g0, image img = Some g0 ->
   exists s' n g,
     Image_Extend (Some l) w h s = Ok s' (Some n) /\
     n <> l /\ heap s !! n = None /\
     g = mkGcImage (gc_next s) w h
           (bool_decide (imageType img = ImageTypeScreen)) (InternalSize w h) /\
     heap s' !! n = Some (mkImage (Some g) w h (mkPixels None) true [] None []
                                  (imageType img)) /\
     heap s' !! l = Some (disposed img) /\
     images_images (theImages s') =
       ({[n]} ∪ images_images (theImages s)) ∖ {[l]} /\
     gc_commands s' =
       gc_commands s ++
         [CmdNewImage g;
          write_command g None
            (Rect 0 0 (fst (InternalSize w h)) (snd (InternalSize w h)));
          CmdDrawTriangles g (resize ShaderSrcImageCount None [Some g0])
            (extend_vertices (gc_internal g0)) QuadIndices BlendCopy
            (Rect 0 0 (fst (gc_internal g0)) (snd (gc_internal g0)))
            (replicate ShaderSrcImageCount ZR) (shader NearestFilterShader)
            [] FillRuleFillAll;
          CmdDispose g0]).
Proof.
  intros Hl. split.
  - intros [Hw Hh]. unfold Image_Extend.
    rewrite (bind_Ok _ _ _ _ _ (load_Ok _ _ _ Hl)).
    assert (E : (width img >=? w)%Z && (height img >=? h)%Z = true).
    { apply andb_true_iff. rewrite !Z.geb_le. split; assumption. }
    rewrite E. reflexivity.
  - intros Hsmall Hinit g0 Hg0.
    assert (E : (width img >=? w)%Z && (height img >=? h)%Z = false).
    { apply not_true_is_false. intros E. apply Hsmall.
      apply andb_true_iff in E. rewrite !Z.geb_le in E. exact E. }
    pose proof (Image_Extend_run s l img g0 w h Hl Hg0 Hinit E) as Hrun.
    cbv zeta in Hrun.
    assert (Hfresh : heap s !! fresh (dom (heap s)) = None).
    { apply not_elem_of_dom. apply is_fresh. }
    eexists _, _, _. split; [exact Hrun|].
    split. { intros Heq. rewrite Heq, Hl in Hfresh. discriminate. }
    split; [exact Hfresh|]. split; [reflexivity|]. simpl.
    split.
    { rewrite lookup_insert_ne, lookup_insert_eq; [reflexivity|].
      intros Heq. rewrite <- Heq, Hl in Hfresh. discriminate. }
    split; [apply lookup_insert_eq|]. split; reflexivity.
Qed.

End RestorableFacts.

(** ** The depth of the Bézier subdivision *)

Section PathFacts.
Context {F : Float32}.
Import vector.

(** The next level is above the current one: a level that does not exceed
    the cap is far from the largest [int]. *)
Lemma next_level_above (level : Z) :
  (level <= 10)%Z -> (level + 1 <= GoInt.add level 1)%Z.
Proof.
  intros Hle. unfold GoInt.add.
  destruct (GoInt_wrap_shift (level + 1)) as (k & Hk & Hr).
  unfold GoInt.in_range, GoInt.min_int, GoInt.max_int in Hr.
  rewrite Hk in *. nia.
Qed.

(** One frame of [quadTo] and of [cubicTo]. *)
Lemma quadTo_frame (fuel : nat) (p : Path) (x1 y1 x2 y2 : float32) (level : Z) :
  quadTo (S fuel) p x1 y1 x2 y2 level =
  if (level >? 10)%Z then Some (Returns p)
  else if isPointCloseToSegment x1 y1 (x (cur p)) (y (cur p)) x2 y2 float32_half
  then Some (LineTo p x2 y2)
  else
    let x01 := mid (x (cur p)) x1 in
    let y01 := mid (y (cur p)) y1 in
    let x12 := mid x1 x2 in
    let y12 := mid y1 y2 in
    match quadTo fuel p x01 y01 (mid x01 x12) (mid y01 y12) (GoInt.add level 1) with
    | Some (Returns p') => quadTo fuel p' x12 y12 x2 y2 (GoInt.add level 1)
    | r => r
    end.
Proof. reflexivity. Qed.

Lemma cubicTo_frame (fuel : nat) (p : Path) (x1 y1 x2 y2 x3 y3 : float32)
    (level : Z) :
  cubicTo (S fuel) p x1 y1 x2 y2 x3 y3 level =
  if (level >? 10)%Z then Some (Returns p)
  else if isPointCloseToSegment x1 y1 (x (cur p)) (y (cur p)) x3 y3 float32_half &&
          isPointCloseToSegment x2 y2 (x (cur p)) (y (cur p)) x3 y3 float32_half
  then Some (LineTo p x3 y3)
  else
    let x01 := mid (x (cur p)) x1 in
    let y01 := mid (y (cur p)) y1 in
    let x12 := mid x1 x2 in
    let y12 := mid y1 y2 in
    let x23 := mid x2 x3 in
    let y23 := mid y2 y3 in
    let x012 := mid x01 x12 in
    let y012 := mid y01 y12 in
    let x123 := mid x12 x23 in
    let y123 := mid y12 y23 in
    match cubicTo fuel p x01 y01 x012 y012 (mid x012 x123) (mid y012 y123)
                  (GoInt.add level 1) with
    | Some (Returns p') =>
        cubicTo fuel p' x123 y123 x23 y23 x3 y3 (GoInt.add level 1)
    | r => r
    end.
Proof. reflexivity. Qed.

Lemma quadTo_total (n : nat) :
  forall (p : Path) (x1 y1 x2 y2 : float32) (level : Z),
    (11 - level <= Z.of_nat n)%Z ->
    exists r, quadTo (S n) p x1 y1 x2 y2 level = Some r.
Proof.
  induction n as [|n IH]; intros p x1 y1 x2 y2 level Hfuel.
  - exists (Returns p). simpl.
    destruct (level >? 10)%Z eqn:E; [reflexivity|].
    rewrite Z.gtb_ltb, Z.ltb_ge in E. lia.
  - rewrite quadTo_frame. cbv zeta.
    destruct (level >? 10)%Z eqn:E; [eauto|].
    rewrite Z.gtb_ltb, Z.ltb_ge in E.
    destruct (isPointCloseToSegment _ _ _ _ _ _ _); [eauto|].
    pose proof (next_level_above level E) as Hnext.
    match goal with
    | |- context [quadTo (S n) p ?a ?b ?c ?d ?lv] =>
        destruct (IH p a b c d lv) as [r1 Hr1]; [lia | rewrite Hr1]
    end.
    destruct r1 as [p'|]; [|eauto].
    apply IH. lia.
Qed.

Lemma cubicTo_total (n : nat) :
  forall (p : Path) (x1 y1 x2 y2 x3 y3 : float32) (level : Z),
    (11 - level <= Z.of_nat n)%Z ->
    exists r, cubicTo (S n) p x1 y1 x2 y2 x3 y3 level = Some r.
Proof.
  induction n as [|n IH]; intros p x1 y1 x2 y2 x3 y3 level Hfuel.
  - exists (Returns p). simpl.
    destruct (level >? 10)%Z eqn:E; [reflexivity|].
    rewrite Z.gtb_ltb, Z.ltb_ge in E. lia.
  - rewrite cubicTo_frame. cbv zeta.
    destruct (level >? 10)%Z eqn:E; [eauto|].
    rewrite Z.gtb_ltb, Z.ltb_ge in E.
    destruct (_ && _); [eauto|].
    pose proof (next_level_above level E) as Hnext.
    match goal with
    | |- context [cubicTo (S n) p ?a ?b ?c ?d ?e ?f ?lv] =>
        destruct (IH p a b c d e f lv) as [r1 Hr1]; [lia | rewrite Hr1]
    end.
    destruct r1 as [p'|]; [|eauto].
    apply IH. lia.
Qed.

(** C10.  [quadTo] and [cubicTo] terminate on every input, whatever the
    closeness test answers: a call at [level] is done within a call stack
    of [12 - level] frames (one frame above the cap), and a call above
    level 10 returns at once with the path untouched.  From [QuadTo] and
    [CubicTo], which start at level 0, twelve frames are enough. *)
Theorem flattening_depth_bounded
    (fuel : nat) (p : Path) (x1 y1 x2 y2 x3 y3 : float32) (level : Z) :
  (1 <= fuel)%nat ->
  (12 - level <= Z.of_nat fuel)%Z ->
  (exists r, quadTo fuel p x1 y1 x2 y2 level = Some r) /\
  (exists r, cubicTo fuel p x1 y1 x2 y2 x3 y3 level = Some r) /\
  ((10 < level)%Z ->
   quadTo fuel p x1 y1 x2 y2 level = Some (Returns p) /\
   cubicTo fuel p x1 y1 x2 y2 x3 y3 level = Some (Returns p)).
Proof.
  intros Hpos Hfuel. destruct fuel as [|n]; [lia|].
  split; [apply quadTo_total; lia|].
  split; [apply cubicTo_total; lia|].
  intros Hcap. simpl.
  assert (E : (level >? 10)%Z = true) by (rewrite Z.gtb_ltb; apply Z.ltb_lt; lia).
  rewrite E. split; reflexivity.
Qed.

End PathFacts.

(** ** More on the list of regions *)

Lemma irredundant_survivors (region : Rectangle) (rs : list Rectangle) :
  irredundant rs -> irredundant (survivors region rs).
Proof.
  unfold survivors. induction rs as [|r rs IH]; simpl; [trivial|].
  intros [Hr Hrs]. destruct (negb (Rectangle_In r region)); simpl.
  - split; [|apply IH; exact Hrs].
    apply Forall_forall. intros r' Hr'.
    apply list_elem_of_In, List.filter_In in Hr' as [Hr' _].
    apply list_elem_of_In in Hr'.
    exact (proj1 (Forall_forall _ _) Hr r' Hr').
  - apply IH. exact Hrs.
Qed.

Lemma irredundant_snoc (rs : list Rectangle) (x : Rectangle) :
  irredundant rs ->
  (forall r, r ∈ rs -> Rectangle_In r x = false /\ Rectangle_In x r = false) ->
  irredundant (rs ++ [x]).
Proof.
  induction rs as [|r rs IH]; simpl.
  - intros _ _. split; [constructor | trivial].
  - intros [Hr Hrs] Hx. split.
    + apply Forall_app. split; [exact Hr|].
      constructor; [|constructor]. apply Hx. left.
    + apply IH; [exact Hrs|]. intros r' Hr'. apply Hx. right. exact Hr'.
Qed.

(** X1.  [appendRegionRemovingDuplicates] keeps the list free of
    redundancy: if no region of the list lies inside another one, the same
    holds after the insertion of any region. *)
Theorem appendRegionRemovingDuplicates_irredundant
    (regions : list Rectangle) (region : Rectangle) :
  irredundant regions ->
  irredundant (appendRegionRemovingDuplicates regions region).
Proof.
  intros Hirr. rewrite appendRegionRemovingDuplicates_spec.
  destruct (existsb (fun r => Rectangle_In region r) regions) eqn:E;
    [exact Hirr|].
  apply irredundant_snoc; [apply irredundant_survivors; exact Hirr|].
  intros r Hr. apply elem_of_survivors in Hr as [Hr Hout].
  split; [exact Hout|]. exact (proj1 (existsb_In_false _ _) E r Hr).
Qed.

(** X2.  An insertion loses no coverage: every region that was in the list,
    and the inserted region itself, lies inside some region of the
    result. *)
Theorem appendRegionRemovingDuplicates_covers
    (regions : list Rectangle) (region r : Rectangle) :
  r ∈ regions \/ r = region ->
  exists r', r' ∈ appendRegionRemovingDuplicates regions region /\
             Rectangle_In r r' = true.
Proof.
  intros Hr. rewrite appendRegionRemovingDuplicates_spec.
  destruct (existsb (fun r => Rectangle_In region r) regions) eqn:E.
  - destruct Hr as [Hr | ->].
    + exists r. split; [exact Hr | apply Rectangle_In_refl].
    + apply existsb_exists in E as (r' & Hr' & Hin).
      exists r'. split; [apply list_elem_of_In; exact Hr' | exact Hin].
  - destruct Hr as [Hr | ->].
    + destruct (Rectangle_In r region) eqn:Hin.
      * exists region. split; [|exact Hin].
        apply elem_of_app. right. apply list_elem_of_singleton. reflexivity.
      * exists r. split; [|apply Rectangle_In_refl].
        apply elem_of_app. left. apply elem_of_survivors. split; assumption.
    + exists region. split; [|apply Rectangle_In_refl].
      apply elem_of_app. right. apply list_elem_of_singleton. reflexivity.
Qed.

(** X3.  Inserting the same region a second time changes nothing. *)
Theorem appendRegionRemovingDuplicates_idempotent
    (regions : list Rectangle) (region : Rectangle) :
  appendRegionRemovingDuplicates
    (appendRegionRemovingDuplicates regions region) region
  = appendRegionRemovingDuplicates regions region.
Proof.
  rewrite (appendRegionRemovingDuplicates_spec region
             (appendRegionRemovingDuplicates regions region)).
  assert (E : existsb (fun r => Rectangle_In region r)
                (appendRegionRemovingDuplicates regions region) = true).
  { rewrite appendRegionRemovingDuplicates_spec.
    destruct (existsb (fun r => Rectangle_In region r) regions) eqn:E0;
      [exact E0|].
    rewrite existsb_app. simpl. rewrite Rectangle_In_refl.
    apply orb_true_r. }
  rewrite E. reflexivity.
Qed.

(** X4.  The result holds only regions of the input and the inserted
    region, is at most one region longer than the input, and is never
    empty. *)
Theorem appendRegionRemovingDuplicates_members
    (regions : list Rectangle) (region : Rectangle) :
  (forall r, r ∈ appendRegionRemovingDuplicates regions region ->
             r ∈ regions \/ r = region) /\
  length (appendRegionRemovingDuplicates regions region) <= S (length regions) /\
  appendRegionRemovingDuplicates regions region <> [].
Proof.
  rewrite appendRegionRemovingDuplicates_spec.
  destruct (existsb (fun r => Rectangle_In region r) regions) eqn:E.
  - split; [intros r Hr; left; exact Hr|]. split; [lia|].
    intros ->. discriminate E.
  - split; [|split].
    + intros r Hr. apply elem_of_app in Hr as [Hr | Hr].
      * left. apply elem_of_survivors in Hr as [Hr _]. exact Hr.
      * right. apply list_elem_of_singleton in Hr. exact Hr.
    + rewrite length_app. simpl.
      pose proof (sublist_length _ _ (survivors_sublist region regions)). lia.
    + intros Hnil. apply app_eq_nil in Hnil as [_ Hnil]. discriminate Hnil.
Qed.

(** ** More on the images and their registry *)

Section RestorableMore.
Context {F : Float32} {B : Backend}.
Local Open Scope go_scope.

Ltac heap_lookup :=
  simpl; first [eassumption | apply lookup_insert_eq].

Ltac run_load :=
  erewrite (bind_Ok (load _)) by (apply load_Ok; heap_lookup); cbv beta.

Ltac run_modify :=
  erewrite (bind_Ok (modify _ _)) by (apply modify_Ok; heap_lookup); cbv beta.

(** X5.  [theImages.makeStaleIfDependingOn] panics on a [nil] target.  On
    any other target it makes no image stale and changes no image at all:
    it only remembers the target as [lastTarget]; a second call with the
    same target changes nothing. *)
Theorem images_makeStaleIfDependingOn_only_remembers (s : state) (target : ptr) :
  match target with
  | None => images_makeStaleIfDependingOn target s = Panicked PanicNilTarget
  | Some t =>
      exists s',
        images_makeStaleIfDependingOn target s = Ok s' tt /\
        heap s' = heap s /\
        images_images (theImages s') = images_images (theImages s) /\
        lastTarget (theImages s') = Some t /\
        graphicsDriverInitialized s' = graphicsDriverInitialized s /\
        gc_commands s' = gc_commands s /\
        images_makeStaleIfDependingOn target s' = Ok s' tt
  end.
Proof.
  destruct target as [t|]; [|reflexivity].
  eexists. split; [apply images_makeStaleIfDependingOn_Ok|].
  repeat (split; [reflexivity|]).
  rewrite images_makeStaleIfDependingOn_Ok. reflexivity.
Qed.

(** X6.  [NewImage] panics when the driver has not been initialised.
    Otherwise it returns a pointer that was not in use, to an image of the
    given size and type that is registered, not stale and without records;
    the images there were are untouched; the commands issued are the
    creation of the handle and one clearing draw over the internal size of
    the handle, not over the logical size. *)
Theorem NewImage_fresh_registered_cleared
    (s : state) (w h : Z) (t : ImageType) :
  if graphicsDriverInitialized s then
    exists s' n g,
      NewImage w h t s = Ok s' (Some n) /\
      heap s !! n = None /\
      g = mkGcImage (gc_next s) w h (bool_decide (t = ImageTypeScreen))
                    (InternalSize w h) /\
      heap s' !! n = Some (mkImage (Some g) w h (mkPixels None) false [] None [] t) /\
      n ∈ images_images (theImages s') /\
      (forall k, k <> n -> heap s' !! k = heap s !! k) /\
      (forall k, k ∈ images_images (theImages s) ->
                 k ∈ images_images (theImages s')) /\
      gc_commands s' =
        gc_commands s ++
          [CmdNewImage g;
           write_command g None
             (Rect 0 0 (fst (gc_internal g)) (snd (gc_internal g)))]
  else NewImage w h t s = Panicked PanicDriverNotReady.
Proof.
  destruct (graphicsDriverInitialized s) eqn:Hinit.
  - pose proof (NewImage_run s w h t Hinit) as Hrun. cbv zeta in Hrun.
    eexists _, _, _. split; [exact Hrun|].
    split; [apply not_elem_of_dom, is_fresh|].
    split; [reflexivity|]. simpl.
    split; [apply lookup_insert_eq|].
    split; [apply elem_of_union; left; apply elem_of_singleton; reflexivity|].
    split; [intros k Hk; apply lookup_insert_ne; congruence|].
    split; [|reflexivity].
    intros k Hk. apply elem_of_union. right. exact Hk.
  - unfold NewImage, bind, get. rewrite Hinit. reflexivity.
Qed.

(** Reading the handles of sources that can be read. *)
Lemma srcs_images_readable (s : state) (srcs : list ptr) :
  Forall (readable (heap s)) srcs ->
  srcs_images srcs s = Ok s (map (handle_of (heap s)) srcs).
Proof.
  induction srcs as [|src srcs IH]; intros Hall; [reflexivity|].
  apply Forall_cons in Hall as [Hsrc Hall]. specialize (IH Hall).
  destruct src as [l|]; cbn [srcs_images map handle_of].
  - destruct Hsrc as [img Himg]. rewrite Himg.
    rewrite (bind_Ok _ _ _ _ _ (load_Ok _ _ _ Himg)).
    rewrite (bind_Ok _ _ _ _ _ IH). reflexivity.
  - rewrite (bind_Ok _ _ _ _ _ IH). reflexivity.
Qed.

Lemma handle_of_set_stale (h : gmap loc Image) (l : loc) (img : Image) (b : bool)
    (src : ptr) :
  h !! l = Some img ->
  handle_of (<[l := set_stale b img]> h) src = handle_of h src.
Proof.
  intros Hl. destruct src as [k|]; [|reflexivity]. simpl.
  destruct (decide (l = k)) as [<- | Hne].
  - rewrite lookup_insert_eq, Hl. reflexivity.
  - rewrite lookup_insert_ne by exact Hne. reflexivity.
Qed.

Lemma readable_insert (h : gmap loc Image) (l : loc) (img' : Image) (src : ptr) :
  readable h src -> readable (<[l := img']> h) src.
Proof.
  destruct src as [k|]; [|trivial]. simpl. intros Hk.
  destruct (decide (l = k)) as [<- | Hne].
  - rewrite lookup_insert_eq. eauto.
  - rewrite lookup_insert_ne by exact Hne. exact Hk.
Qed.

(** [DrawTriangles] with vertices, on a live image: the state it returns
    in. *)
Lemma Image_DrawTriangles_run (s : state) (l : loc) (img : Image) (g : gcImage)
    (srcs : list ptr) (vertices : list float32) (indices : list Z)
    (blend : Blend) (dstRegion : Rectangle) (srcRegions : list Rectangle)
    (sh : Shader gcShader) (uniforms : list Z) (fillRule : FillRule) :
  heap s !! l = Some img ->
  image img = Some g ->
  vertices <> [] ->
  Forall (readable (heap s)) srcs ->
  Image_DrawTriangles (Some l) srcs vertices indices blend dstRegion srcRegions
                      (Some sh) uniforms fillRule s =
  Ok (mkState (<[l := set_stale true img]> (heap s))
              (mkImages (images_images (theImages s)) (Some l))
              (graphicsDriverInitialized s) (gc_next s)
              (gc_commands s ++
                 [CmdDrawTriangles g (map (handle_of (heap s)) srcs) vertices
                    indices blend dstRegion srcRegions (shader sh) uniforms
                    fillRule])) tt.
Proof.
  intros Hl Hg Hv Hsrcs. unfold Image_DrawTriangles.
  destruct (decide (length vertices = 0%nat)) as [Hlen | _].
  { apply length_zero_iff_nil in Hlen. contradiction. }
  rewrite (bind_Ok _ _ _ _ _ (images_makeStaleIfDependingOn_Ok s l)).
  set (s1 := set_theImages _ s).
  assert (Hl1 : heap s1 !! l = Some img) by exact Hl.
  rewrite (bind_Ok _ _ _ _ _ (modify_Ok s1 l img _ Hl1)).
  set (s2 := set_heap _ s1).
  assert (Hsrcs2 : Forall (readable (heap s2)) srcs).
  { unfold s2, s1; simpl. eapply Forall_impl; [exact Hsrcs|].
    intros src. apply readable_insert. }
  rewrite (bind_Ok _ _ _ _ _ (srcs_images_readable s2 srcs Hsrcs2)).
  assert (Hl2 : heap s2 !! l = Some (set_stale true img)).
  { unfold s2; simpl. apply lookup_insert_eq. }
  rewrite (bind_Ok _ _ _ _ _ (load_Ok _ _ _ Hl2)).
  simpl image. rewrite Hg. unfold gcImage_DrawTriangles, gc_emit.
  unfold s2, s1, set_heap, set_theImages, Image_makeStale. simpl.
  assert (Hmap : map (handle_of (<[l := set_stale true img]> (heap s))) srcs
                 = map (handle_of (heap s)) srcs).
  { apply map_ext. intros src. apply handle_of_set_stale. exact Hl. }
  rewrite Hmap. reflexivity.
Qed.

(** X7.  [DrawTriangles] with at least one vertex, on a live image, with a
    shader and sources that are [nil] or images: it returns; the image is
    marked stale and nothing else of it changes, its records and stale
    regions in particular; no other image changes; exactly one draw is
    issued, on the handle of the image, with the handles of the sources in
    the order of the sources. *)
Theorem Image_DrawTriangles_marks_stale_and_draws
    (s : state) (l : loc) (img : Image) (g : gcImage)
    (srcs : list ptr) (vertices : list float32) (indices : list Z)
    (blend : Blend) (dstRegion : Rectangle) (srcRegions : list Rectangle)
    (sh : Shader gcShader) (uniforms : list Z) (fillRule : FillRule) :
  heap s !! l = Some img ->
  image img = Some g ->
  vertices <> [] ->
  Forall (readable (heap s)) srcs ->
  exists s',
    Image_DrawTriangles (Some l) srcs vertices indices blend dstRegion
                        srcRegions (Some sh) uniforms fillRule s = Ok s' tt /\
    heap s' !! l = Some (set_stale true img) /\
    (forall k, k <> l -> heap s' !! k = heap s !! k) /\
    images_images (theImages s') = images_images (theImages s) /\
    lastTarget (theImages s') = Some l /\
    gc_commands s' =
      gc_commands s ++
        [CmdDrawTriangles g (map (handle_of (heap s)) srcs) vertices indices
           blend dstRegion srcRegions (shader sh) uniforms fillRule].
Proof.
  intros Hl Hg Hv Hsrcs. eexists. split.
  - apply (Image_DrawTriangles_run s l img g); assumption.
  - simpl. split; [apply lookup_insert_eq|].
    split; [intros k Hk; apply lookup_insert_ne; congruence|].
    repeat split; reflexivity.
Qed.


(** What a [WritePixels] that returned has done to the heap. *)
Lemma Image_WritePixels_Ok_inv (s s' : state) (l : loc) (img : Image)
    (pixels : option ManagedBytes) (region : Rectangle) :
  heap s !! l = Some img ->
  Image_WritePixels (Some l) pixels region s = Ok s' tt ->
  heap s' = <[l := set_stale true img]> (heap s).
Proof.
  intros Hl Hrun.
  destruct ((Rectangle_Dx region <=? 0)%Z || (Rectangle_Dy region <=? 0)%Z) eqn:Hpos.
  { unfold Image_WritePixels in Hrun. rewrite Hpos in Hrun. discriminate Hrun. }
  destruct (Rectangle_In region (Rect 0 0 (width img) (height img))) eqn:Hin.
  2:{ unfold Image_WritePixels in Hrun. rewrite Hpos in Hrun.
      rewrite (bind_Ok _ _ _ _ _ (load_Ok _ _ _ Hl)) in Hrun.
      rewrite Hin in Hrun. discriminate Hrun. }
  destruct (image img) as [g|] eqn:Hg.
  - rewrite (Image_WritePixels_run s l img g pixels region Hl Hg Hpos Hin) in Hrun.
    injection Hrun as <-. reflexivity.
  - unfold Image_WritePixels in Hrun. rewrite Hpos in Hrun.
    rewrite (bind_Ok _ _ _ _ _ (load_Ok _ _ _ Hl)) in Hrun.
    rewrite Hin in Hrun. simpl in Hrun.
    rewrite (bind_Ok _ _ _ _ _ (images_makeStaleIfDependingOn_Ok s l)) in Hrun.
    set (s1 := set_theImages _ s) in Hrun.
    assert (Hl1 : heap s1 !! l = Some img) by exact Hl.
    rewrite (bind_Ok _ _ _ _ _ (load_Ok _ _ _ Hl1)) in Hrun.
    rewrite Hg in Hrun. destruct pixels; discriminate Hrun.
Qed.

(** X8.  A regular image that has been written to cannot be restored: once
    [WritePixels] (with a buffer, or with [nil] as [ClearPixels] does) has
    returned, [restore] on the same image panics. *)
Theorem Image_restore_after_WritePixels_panics
    (s s' : state) (l : loc) (img : Image)
    (pixels : option ManagedBytes) (region : Rectangle) :
  heap s !! l = Some img ->
  imageType img = ImageTypeRegular ->
  Image_WritePixels (Some l) pixels region s = Ok s' tt ->
  Image_restore (Some l) s' = Panicked PanicStaleRestore.
Proof.
  intros Hl Ht Hrun.
  pose proof (Image_WritePixels_Ok_inv s s' l img pixels region Hl Hrun) as Hheap.
  apply (Image_restore_stale_regular s' l (set_stale true img)).
  - rewrite Hheap. apply lookup_insert_eq.
  - exact Ht.
  - reflexivity.
Qed.

(** X9.  [Dispose] on a live image: the image leaves the registry, its
    handle is [nil], its records, pixel cache and stale regions are empty
    and it is not stale, whatever it was before; its size and type stay;
    no other image and no other registration changes; the only command
    issued is the disposal of the handle. *)
Theorem Image_Dispose_unregisters_and_resets
    (s : state) (l : loc) (img : Image) (g : gcImage) :
  heap s !! l = Some img ->
  image img = Some g ->
  exists s' img',
    Image_Dispose (Some l) s = Ok s' tt /\
    heap s' !! l = Some img' /\
    image img' = None /\ basePixels img' = mkPixels None /\
    stale img' = false /\ staleRegions img' = [] /\ pixelsCache img' = None /\
    width img' = width img /\ height img' = height img /\
    imageType img' = imageType img /\
    (l ∉ images_images (theImages s')) /\
    (forall k, k <> l ->
       heap s' !! k = heap s !! k /\
       (k ∈ images_images (theImages s') <-> k ∈ images_images (theImages s))) /\
    gc_commands s' = gc_commands s ++ [CmdDispose g].
Proof.
  intros Hl Hg. eexists _, _.
  split; [apply (Image_Dispose_run s l img g Hl Hg)|]. simpl.
  split; [apply lookup_insert_eq|].
  do 8 (split; [reflexivity|]).
  split; [apply not_elem_of_difference; right; apply elem_of_singleton; reflexivity|].
  split; [|reflexivity].
  intros k Hk. split; [apply lookup_insert_ne; congruence|].
  rewrite elem_of_difference, elem_of_singleton. intuition congruence.
Qed.

(** [restore] when it returns: the state it returns in, up to the commands
    issued. *)
Lemma Image_restore_frame (s : state) (l : loc) (img : Image) :
  heap s !! l = Some img ->
  (imageType img = ImageTypeRegular -> stale img = false) ->
  exists s' img' cmds,
    Image_restore (Some l) s = Ok s' None /\
    heap s' = <[l := img']> (heap s) /\
    theImages s' = theImages s /\
    gc_next s' = S (gc_next s) /\
    gc_commands s' = gc_commands s ++ cmds /\
    image img' = Some (mkGcImage (gc_next s) (width img) (height img)
                         (bool_decide (imageType img = ImageTypeScreen))
                         (InternalSize (width img) (height img))) /\
    width img' = width img /\ height img' = height img /\
    imageType img' = imageType img /\
    pixelsCache img' = pixelsCache img /\
    basePixels img' = (if decide (imageType img = ImageTypeScreen)
                       then mkPixels None else basePixels img).
Proof.
  intros Hl Hreg. unfold Image_restore. run_load.
  destruct (imageType img) eqn:Ht.
  - (* regular *)
    run_load. rewrite (Hreg eq_refl).
    unfold bind at 1. unfold gc_NewImage. cbv beta iota zeta.
    unfold bind at 1. unfold gcImage_InternalSize, ret. cbv beta iota.
    unfold bind at 1. unfold clearImage, gcImage_DrawTriangles, gc_emit.
    cbv beta iota zeta.
    run_load.
    match goal with
    | |- context [bind (Pixels_Apply ?p (Some ?g)) _ ?st] =>
        destruct (Pixels_Apply_Ok p g st) as [cmds Hcmds];
        rewrite (bind_Ok _ _ _ _ _ Hcmds)
    end.
    run_modify. run_modify. run_modify.
    eexists _, _, _. split; [reflexivity|]. simpl.
    split; [rewrite !insert_insert_eq; reflexivity|].
    split; [reflexivity|]. split; [reflexivity|].
    split; [rewrite <- !app_assoc; reflexivity|].
    repeat split; first [reflexivity | exact Ht].
  - (* screen *)
    unfold bind at 1. unfold gc_NewImage. cbv beta iota zeta.
    run_modify. run_modify. run_modify. run_modify. run_modify.
    eexists _, _, _. split; [reflexivity|]. simpl.
    split; [rewrite !insert_insert_eq; reflexivity|].
    repeat split; first [reflexivity | exact Ht].
  - (* volatile *)
    unfold bind at 1. unfold gc_NewImage. cbv beta iota zeta.
    run_modify. run_load. simpl.
    unfold bind, clearImage, gcImage_DrawTriangles, gc_emit, ret. simpl.
    eexists _, _, _. split; [reflexivity|]. simpl.
    split; [reflexivity|].
    split; [reflexivity|]. split; [reflexivity|].
    split; [rewrite <- !app_assoc; reflexivity|].
    repeat split; first [reflexivity | exact Ht].
Qed.




(** X12.  [Extend] builds the new image with exactly the requested size;
    it does not take the larger of the old and the new size.  When the
    request is wider but lower than the image, the image [Extend] returns
    is lower than the original.  Before the driver is initialised, an
    [Extend] that has to build an image panics. *)
Theorem Image_Extend_exact_size
    (s : state) (l : loc) (img : Image) (g0 : gcImage) (w h : Z) :
  heap s !! l = Some img ->
  image img = Some g0 ->
  (width img < w)%Z ->
  if graphicsDriverInitialized s then
    exists s' n img',
      Image_Extend (Some l) w h s = Ok s' (Some n) /\
      heap s' !! n = Some img' /\
      width img' = w /\ height img' = h /\
      ((h < height img)%Z -> (height img' < height img)%Z)
  else Image_Extend (Some l) w h s = Panicked PanicDriverNotReady.
Proof.
  intros Hl Hg0 Hw.
  assert (E : (width img >=? w)%Z && (height img >=? h)%Z = false).
  { apply andb_false_iff. left. rewrite Z.geb_leb. apply Z.leb_gt. exact Hw. }
  destruct (graphicsDriverInitialized s) eqn:Hinit.
  - pose proof (Image_Extend_run s l img g0 w h Hl Hg0 Hinit E) as Hrun.
    cbv zeta in Hrun.
    assert (Hfresh : heap s !! fresh (dom (heap s)) = None).
    { apply not_elem_of_dom. apply is_fresh. }
    eexists _, _, _. split; [exact Hrun|]. simpl. split.
    { rewrite lookup_insert_ne, lookup_insert_eq; [reflexivity|].
      intros Heq. rewrite <- Heq, Hl in Hfresh. discriminate. }
    simpl. split; [reflexivity|]. split; [reflexivity|]. intros Hh. exact Hh.
  - unfold Image_Extend. rewrite (bind_Ok _ _ _ _ _ (load_Ok _ _ _ Hl)).
    rewrite E. unfold bind at 1. unfold NewImage, bind, get.
    rewrite Hinit. reflexivity.
Qed.

(** X13.  A regular image that [Extend] had to replace cannot be restored:
    the copy is a draw, so the image [Extend] returns is stale, and
    [restore] on it panics. *)
Theorem Image_restore_after_Extend_panics
    (s : state) (l : loc) (img : Image) (g0 : gcImage) (w h : Z) :
  heap s !! l = Some img ->
  image img = Some g0 ->
  imageType img = ImageTypeRegular ->
  graphicsDriverInitialized s = true ->
  ~ ((w <= width img)%Z /\ (h <= height img)%Z) ->
  exists s' n,
    Image_Extend (Some l) w h s = Ok s' (Some n) /\
    Image_restore (Some n) s' = Panicked PanicStaleRestore.
Proof.
  intros Hl Hg0 Ht Hinit Hsmall.
  assert (E : (width img >=? w)%Z && (height img >=? h)%Z = false).
  { apply not_true_is_false. intros E. apply Hsmall.
    apply andb_true_iff in E. rewrite !Z.geb_le in E. exact E. }
  pose proof (Image_Extend_run s l img g0 w h Hl Hg0 Hinit E) as Hrun.
  cbv zeta in Hrun.
  assert (Hfresh : heap s !! fresh (dom (heap s)) = None).
  { apply not_elem_of_dom. apply is_fresh. }
  eexists _, _. split; [exact Hrun|].
  eapply Image_restore_stale_regular.
  - simpl. rewrite lookup_insert_ne, lookup_insert_eq; [reflexivity|].
    intros Heq. rewrite <- Heq, Hl in Hfresh. discriminate.
  - exact Ht.
  - reflexivity.
Qed.

End RestorableMore.

(** ** More on paths *)

Section PathMore.
Context {F : Float32}.
Import vector.

Lemma last_nonempty {A : Type} (l : list A) :
  l <> [] -> exists init a, l = init ++ [a].
Proof.
  intros Hl. destruct (exists_last Hl) as (init & a & ->). eauto.
Qed.

(** X14.  [LineTo] panics exactly when the last segment of the path is
    empty; on a path without segments it does not panic. *)
Theorem LineTo_panics_iff_last_segment_empty (p : Path) (x' y' : float32) :
  LineTo p x' y' = Panics <-> last (segs p) = Some [].
Proof.
  unfold LineTo.
  destruct (decide (length (segs p) = 0%nat)) as [Hlen | Hlen].
  - apply length_zero_iff_nil in Hlen. rewrite Hlen. simpl.
    split; discriminate.
  - assert (Hne : segs p <> []) by (intros E; rewrite E in Hlen; apply Hlen; reflexivity).
    destruct (last_nonempty _ Hne) as (init & seg & Hsegs).
    rewrite Hsegs, last_snoc.
    destruct seg as [|q seg].
    + simpl. split; reflexivity.
    + destruct (last_nonempty (q :: seg)) as (init' & q' & Hseg); [discriminate|].
      rewrite Hseg, last_snoc. split; [discriminate|].
      intros E. injection E as E. apply app_eq_nil in E as [_ E]. discriminate E.
Qed.

(** [LineTo] on a path with a last segment that holds a point. *)
Lemma LineTo_started (p : Path) (x' y' : float32) :
  well_formed p -> segs p <> [] ->
  exists p' added,
    LineTo p x' y' = Returns p' /\
    well_formed p' /\
    appends_to_last p p' added /\
    (added = [] \/ added = [mkPoint x' y']) /\
    cur p' = mkPoint x' y'.
Proof.
  intros Hwf Hne. unfold LineTo.
  destruct (decide (length (segs p) = 0%nat)) as [Hlen | _].
  { apply length_zero_iff_nil in Hlen. contradiction. }
  destruct (last_nonempty _ Hne) as (init & seg & Hsegs).
  assert (Hseg : seg <> []).
  { unfold well_formed in Hwf. rewrite Hsegs in Hwf.
    apply Forall_app in Hwf as [_ Hwf]. apply Forall_cons in Hwf as [Hwf _].
    exact Hwf. }
  assert (Hinit : Forall (fun seg => seg <> []) init).
  { unfold well_formed in Hwf. rewrite Hsegs in Hwf.
    apply Forall_app in Hwf as [Hwf _]. exact Hwf. }
  destruct (last_nonempty _ Hseg) as (pts & q & Hq).
  subst seg. rewrite Hsegs, !last_snoc.
  destruct (fne (x q) x' || fne (y q) y').
  - exists (mkPath (init ++ [(pts ++ [q]) ++ [mkPoint x' y']]) (mkPoint x' y')),
           [mkPoint x' y'].
    split.
    { f_equal. f_equal. rewrite length_app. simpl.
      replace (length init + 1 - 1)%nat with (length init + 0)%nat by lia.
      rewrite insert_app_r. reflexivity. }
    split.
    { unfold well_formed. simpl. apply Forall_app. split; [exact Hinit|].
      constructor; [|constructor]. intros E. apply app_eq_nil in E as [_ E].
      discriminate E. }
    split; [exists init, (pts ++ [q]); split; [exact Hsegs | reflexivity]|].
    split; [right; reflexivity | reflexivity].
  - exists (mkPath (init ++ [pts ++ [q]]) (mkPoint x' y')), [].
    split; [reflexivity|].
    split.
    { unfold well_formed. simpl. rewrite <- Hsegs. exact Hwf. }
    split; [exists init, (pts ++ [q]);
            split; [exact Hsegs | rewrite app_nil_r; reflexivity]|].
    split; [left; reflexivity | reflexivity].
Qed.

(** [LineTo] on any path whose segments all hold a point. *)
Lemma LineTo_well_formed_run (p : Path) (x' y' : float32) :
  well_formed p ->
  exists p',
    LineTo p x' y' = Returns p' /\
    well_formed p' /\ segs p' <> [] /\
    cur p' = mkPoint x' y' /\
    (exists added,
       appends_to_last (if decide (length (segs p) = 0%nat)
                        then mkPath [[cur p]] (cur p) else p) p' added /\
       (added = [] \/ added = [mkPoint x' y'])).
Proof.
  intros Hwf.
  set (p0 := if decide (length (segs p) = 0%nat)
             then mkPath [[cur p]] (cur p) else p).
  assert (Hsame : LineTo p x' y' = LineTo p0 x' y').
  { unfold p0. destruct (decide (length (segs p) = 0%nat)) as [Hlen|]; [|reflexivity].
    apply length_zero_iff_nil in Hlen. unfold LineTo. rewrite Hlen. reflexivity. }
  assert (Hwf0 : well_formed p0 /\ segs p0 <> []).
  { unfold p0. destruct (decide (length (segs p) = 0%nat)) as [Hlen|Hlen].
    - split; [|discriminate]. unfold well_formed. simpl.
      constructor; [discriminate | constructor].
    - split; [exact Hwf|]. intros E. rewrite E in Hlen. apply Hlen. reflexivity. }
  destruct Hwf0 as [Hwf0 Hne0].
  destruct (LineTo_started p0 x' y' Hwf0 Hne0)
    as (p' & added & Hrun & Hwf' & Happ & Hadded & Hcur).
  exists p'. rewrite Hsame. split; [exact Hrun|]. split; [exact Hwf'|].
  split.
  { destruct Happ as (init & seg & _ & Hsegs'). rewrite Hsegs'.
    intros E. apply app_eq_nil in E as [_ E]. discriminate E. }
  split; [exact Hcur|]. exists added. split; assumption.
Qed.

(** X15.  On a path whose segments all hold a point, [LineTo] returns: the
    current position is the given point, the segments all hold a point
    still and there is at least one.  A path without segments gets the
    segment that starts at the old current position; otherwise the number
    of segments is kept, the segments before the last one are untouched
    and the last one grows by the given point or not at all. *)
Theorem LineTo_keeps_well_formed (p : Path) (x' y' : float32) :
  well_formed p ->
  exists p',
    LineTo p x' y' = Returns p' /\
    well_formed p' /\ segs p' <> [] /\
    cur p' = mkPoint x' y' /\
    (exists added,
       appends_to_last (if decide (length (segs p) = 0%nat)
                        then mkPath [[cur p]] (cur p) else p) p' added /\
       (added = [] \/ added = [mkPoint x' y'])).
Proof. intros Hwf. exact (LineTo_well_formed_run p x' y' Hwf). Qed.


Lemma appends_to_last_refl (p : Path) :
  segs p <> [] -> appends_to_last p p [].
Proof.
  intros Hne. destruct (last_nonempty _ Hne) as (init & seg & Hsegs).
  exists init, seg. rewrite app_nil_r. split; exact Hsegs.
Qed.

Lemma appends_to_last_trans (p p' p'' : Path) (a b : list point) :
  appends_to_last p p' a -> appends_to_last p' p'' b ->
  appends_to_last p p'' (a ++ b).
Proof.
  intros (init & seg & Hp & Hp') (init' & seg' & Hq & Hq').
  rewrite Hp' in Hq. apply app_inj_tail in Hq as [<- <-].
  exists init, seg. split; [exact Hp|]. rewrite Hq', app_assoc. reflexivity.
Qed.

Lemma appends_to_last_started (p p' : Path) (a : list point) :
  appends_to_last p p' a -> segs p' <> [].
Proof.
  intros (init & seg & _ & Hp') E. rewrite Hp' in E.
  apply app_eq_nil in E as [_ E]. discriminate E.
Qed.

Lemma flatten_bound_step (level next : Z) :
  (level <= 10)%Z -> (level + 1 <= next)%Z ->
  2 * flatten_bound next <= flatten_bound level /\ 1 <= flatten_bound level.
Proof.
  intros Hle Hnext. unfold flatten_bound.
  destruct (level >? 10)%Z eqn:E; [rewrite Z.gtb_ltb, Z.ltb_lt in E; lia|].
  assert (Hone : 1 <= 2 ^ Z.to_nat (10 - level)).
  { apply Nat.neq_0_lt_0. apply Nat.pow_nonzero. discriminate. }
  split; [|exact Hone].
  destruct (next >? 10)%Z eqn:E'; [simpl; lia|].
  rewrite Z.gtb_ltb, Z.ltb_ge in E'.
  replace (Z.to_nat (10 - level)) with (S (Z.to_nat (10 - level) - 1)) by lia.
  rewrite Nat.pow_succ_r'.
  apply Nat.mul_le_mono_l. apply Nat.pow_le_mono_r; [discriminate | lia].
Qed.

Lemma quadTo_appends (n : nat) :
  forall (p : Path) (x1 y1 x2 y2 : float32) (level : Z),
    (11 - level <= Z.of_nat n)%Z ->
    well_formed p -> segs p <> [] ->
    exists p' added,
      quadTo (S n) p x1 y1 x2 y2 level = Some (Returns p') /\
      well_formed p' /\ appends_to_last p p' added /\
      length added <= flatten_bound level.
Proof.
  induction n as [|n IH]; intros p x1 y1 x2 y2 level Hfuel Hwf Hne.
  - exists p, []. simpl.
    destruct (level >? 10)%Z eqn:E;
      [|rewrite Z.gtb_ltb, Z.ltb_ge in E; lia].
    split; [reflexivity|]. split; [exact Hwf|].
    split; [apply appends_to_last_refl; exact Hne | simpl; lia].
  - rewrite quadTo_frame. cbv zeta.
    destruct (level >? 10)%Z eqn:E.
    { exists p, []. split; [reflexivity|]. split; [exact Hwf|].
      split; [apply appends_to_last_refl; exact Hne | simpl; lia]. }
    rewrite Z.gtb_ltb, Z.ltb_ge in E.
    pose proof (next_level_above level E) as Hnext.
    destruct (flatten_bound_step level _ E Hnext) as [Hdouble Hone].
    destruct (isPointCloseToSegment _ _ _ _ _ _ _).
    { destruct (LineTo_started p x2 y2 Hwf Hne)
        as (p' & added & Hrun & Hwf' & Happ & Hadded & _).
      exists p', added. rewrite Hrun. split; [reflexivity|].
      split; [exact Hwf'|]. split; [exact Happ|].
      destruct Hadded as [-> | ->]; simpl; lia. }
    match goal with
    | |- context [quadTo (S n) p ?a ?b ?c ?d ?lv] =>
        destruct (IH p a b c d lv) as (p1 & a1 & Hr1 & Hwf1 & Happ1 & Hlen1);
          [lia | exact Hwf | exact Hne | rewrite Hr1]
    end.
    match goal with
    | |- context [quadTo (S n) p1 ?a ?b ?c ?d ?lv] =>
        destruct (IH p1 a b c d lv) as (p2 & a2 & Hr2 & Hwf2 & Happ2 & Hlen2);
          [lia | exact Hwf1 | exact (appends_to_last_started _ _ _ Happ1) |]
    end.
    exists p2, (a1 ++ a2). split; [exact Hr2|]. split; [exact Hwf2|].
    split; [exact (appends_to_last_trans _ _ _ _ _ Happ1 Happ2)|].
    rewrite length_app. lia.
Qed.

Lemma cubicTo_appends (n : nat) :
  forall (p : Path) (x1 y1 x2 y2 x3 y3 : float32) (level : Z),
    (11 - level <= Z.of_nat n)%Z ->
    well_formed p -> segs p <> [] ->
    exists p' added,
      cubicTo (S n) p x1 y1 x2 y2 x3 y3 level = Some (Returns p') /\
      well_formed p' /\ appends_to_last p p' added /\
      length added <= flatten_bound level.
Proof.
  induction n as [|n IH]; intros p x1 y1 x2 y2 x3 y3 level Hfuel Hwf Hne.
  - exists p, []. simpl.
    destruct (level >? 10)%Z eqn:E;
      [|rewrite Z.gtb_ltb, Z.ltb_ge in E; lia].
    split; [reflexivity|]. split; [exact Hwf|].
    split; [apply appends_to_last_refl; exact Hne | simpl; lia].
  - rewrite cubicTo_frame. cbv zeta.
    destruct (level >? 10)%Z eqn:E.
    { exists p, []. split; [reflexivity|]. split; [exact Hwf|].
      split; [apply appends_to_last_refl; exact Hne | simpl; lia]. }
    rewrite Z.gtb_ltb, Z.ltb_ge in E.
    pose proof (next_level_above level E) as Hnext.
    destruct (flatten_bound_step level _ E Hnext) as [Hdouble Hone].
    destruct (_ && _).
    { destruct (LineTo_started p x3 y3 Hwf Hne)
        as (p' & added & Hrun & Hwf' & Happ & Hadded & _).
      exists p', added. rewrite Hrun. split; [reflexivity|].
      split; [exact Hwf'|]. split; [exact Happ|].
      destruct Hadded as [-> | ->]; simpl; lia. }
    match goal with
    | |- context [cubicTo (S n) p ?a ?b ?c ?d ?e ?f ?lv] =>
        destruct (IH p a b c d e f lv) as (p1 & a1 & Hr1 & Hwf1 & Happ1 & Hlen1);
          [lia | exact Hwf | exact Hne | rewrite Hr1]
    end.
    match goal with
    | |- context [cubicTo (S n) p1 ?a ?b ?c ?d ?e ?f ?lv] =>
        destruct (IH p1 a b c d e f lv) as (p2 & a2 & Hr2 & Hwf2 & Happ2 & Hlen2);
          [lia | exact Hwf1 | exact (appends_to_last_started _ _ _ Happ1) |]
    end.
    exists p2, (a1 ++ a2). split; [exact Hr2|]. split; [exact Hwf2|].
    split; [exact (appends_to_last_trans _ _ _ _ _ Happ1 Happ2)|].
    rewrite length_app. lia.
Qed.

(** X16.  On a path whose segments all hold a point and that has a
    segment, [QuadTo] and [CubicTo] (twelve frames of stack are enough) do
    not panic; they leave every segment but the last untouched, and append
    to the last one at most 1024 points; the segments all hold a point
    afterwards. *)
Theorem flattening_appends_at_most_1024_points
    (fuel : nat) (p : Path) (x1 y1 x2 y2 x3 y3 : float32) :
  12 <= fuel ->
  well_formed p -> segs p <> [] ->
  (exists p' added,
     QuadTo fuel p x1 y1 x2 y2 = Some (Returns p') /\
     well_formed p' /\ appends_to_last p p' added /\ length added <= 1024) /\
  (exists p' added,
     CubicTo fuel p x1 y1 x2 y2 x3 y3 = Some (Returns p') /\
     well_formed p' /\ appends_to_last p p' added /\ length added <= 1024).
Proof.
  intros Hfuel Hwf Hne. destruct fuel as [|n]; [lia|].
  unfold QuadTo, CubicTo. split.
  - destruct (quadTo_appends n p x1 y1 x2 y2 0) as (p' & a & H1 & H2 & H3 & H4);
      [lia | exact Hwf | exact Hne |].
    exists p', a. repeat split; assumption.
  - destruct (cubicTo_appends n p x1 y1 x2 y2 x3 y3 0)
      as (p' & a & H1 & H2 & H3 & H4); [lia | exact Hwf | exact Hne |].
    exists p', a. repeat split; assumption.
Qed.


(** *** A NaN as control point *)

Section NaN.
Variable nan : float32.
Hypothesis fadd_nan_l : forall a, fadd nan a = nan.
Hypothesis fadd_nan_r : forall a, fadd a nan = nan.
Hypothesis fmul_nan_l : forall a, fmul nan a = nan.
Hypothesis fmul_nan_r : forall a, fmul a nan = nan.
Hypothesis fdiv_nan_l : forall a, fdiv nan a = nan.
Hypothesis fgt_nan_r : forall a, fgt a nan = false.

Lemma isPointCloseToSegment_nan (y' x0 y0 x1 y1 allow : float32) :
  isPointCloseToSegment nan y' x0 y0 x1 y1 allow = false.
Proof.
  unfold isPointCloseToSegment.
  rewrite fmul_nan_r, !fadd_nan_l, fmul_nan_l. apply fgt_nan_r.
Qed.

Lemma mid_nan_l (a : float32) : mid nan a = nan.
Proof. unfold mid. rewrite fadd_nan_l. apply fdiv_nan_l. Qed.

Lemma mid_nan_r (a : float32) : mid a nan = nan.
Proof. unfold mid. rewrite fadd_nan_r. apply fdiv_nan_l. Qed.

Lemma quadTo_nan (n : nat) :
  forall (p : Path) (y1 x2 y2 : float32) (level : Z),
    (11 - level <= Z.of_nat n)%Z ->
    quadTo (S n) p nan y1 x2 y2 level = Some (Returns p).
Proof.
  induction n as [|n IH]; intros p y1 x2 y2 level Hfuel.
  - simpl. destruct (level >? 10)%Z eqn:E; [reflexivity|].
    rewrite Z.gtb_ltb, Z.ltb_ge in E. lia.
  - rewrite quadTo_frame. cbv zeta.
    destruct (level >? 10)%Z eqn:E; [reflexivity|].
    rewrite Z.gtb_ltb, Z.ltb_ge in E.
    pose proof (next_level_above level E) as Hnext.
    rewrite isPointCloseToSegment_nan.
    repeat (rewrite mid_nan_r || rewrite mid_nan_l).
    rewrite IH by lia. apply IH. lia.
Qed.

Lemma cubicTo_nan (n : nat) :
  forall (p : Path) (y1 x2 y2 x3 y3 : float32) (level : Z),
    (11 - level <= Z.of_nat n)%Z ->
    cubicTo (S n) p nan y1 x2 y2 x3 y3 level = Some (Returns p).
Proof.
  induction n as [|n IH]; intros p y1 x2 y2 x3 y3 level Hfuel.
  - simpl. destruct (level >? 10)%Z eqn:E; [reflexivity|].
    rewrite Z.gtb_ltb, Z.ltb_ge in E. lia.
  - rewrite cubicTo_frame. cbv zeta.
    destruct (level >? 10)%Z eqn:E; [reflexivity|].
    rewrite Z.gtb_ltb, Z.ltb_ge in E.
    pose proof (next_level_above level E) as Hnext.
    rewrite isPointCloseToSegment_nan. simpl andb. cbv iota.
    repeat (rewrite mid_nan_r || rewrite mid_nan_l).
    rewrite IH by lia. apply IH. lia.
Qed.

(** X17.  With a NaN as the x of the first control point (a value that
    every sum, product and quotient propagates and that no [>] holds
    against), [QuadTo] and [CubicTo] subdivide down to the depth cap and
    return the path as it was: no point is added and the current position
    is not moved to the destination. *)
Theorem flattening_with_nan_leaves_path
    (fuel : nat) (p : Path) (y1 x2 y2 x3 y3 : float32) :
  12 <= fuel ->
  QuadTo fuel p nan y1 x2 y2 = Some (Returns p) /\
  CubicTo fuel p nan y1 x2 y2 x3 y3 = Some (Returns p).
Proof.
  intros Hfuel. destruct fuel as [|n]; [lia|]. unfold QuadTo, CubicTo.
  split; [apply quadTo_nan; lia | apply cubicTo_nan; lia].
Qed.

End NaN.

(** *** [ArcTo] *)

Section Arc.
Context {M : Math}.

(** X18.  On a path whose segments all hold a point, [ArcTo] (twelve
    frames of stack are enough for its [CubicTo]) does not panic, whatever
    the floating-point results are; afterwards the current position is the
    destination [(x2, y2)] and the segments all hold a point. *)
Theorem ArcTo_ends_at_destination
    (fuel : nat) (p : Path) (x1 y1 x2 y2 radius : float32) :
  12 <= fuel ->
  well_formed p ->
  exists p',
    ArcTo fuel p x1 y1 x2 y2 radius = Some (Returns p') /\
    well_formed p' /\ segs p' <> [] /\ cur p' = mkPoint x2 y2.
Proof.
  intros Hfuel Hwf. destruct fuel as [|n]; [lia|].
  unfold ArcTo, normalize. cbv zeta beta iota.
  match goal with
  | |- context [LineTo p ?a ?b] =>
      destruct (LineTo_well_formed_run p a b Hwf)
        as (p1 & Hrun1 & Hwf1 & Hne1 & _); rewrite Hrun1
  end.
  unfold CubicTo.
  match goal with
  | |- context [cubicTo (S n) p1 ?a ?b ?c ?d ?e ?f 0] =>
      destruct (cubicTo_appends n p1 a b c d e f 0)
        as (p2 & a2 & Hrun2 & Hwf2 & Happ2 & _);
        [lia | exact Hwf1 | exact Hne1 | rewrite Hrun2]
  end.
  destruct (LineTo_started p2 x2 y2 Hwf2 (appends_to_last_started _ _ _ Happ2))
    as (p3 & a3 & Hrun3 & Hwf3 & Happ3 & _ & Hcur3).
  exists p3. rewrite Hrun3. split; [reflexivity|]. split; [exact Hwf3|].
  split; [exact (appends_to_last_started _ _ _ Happ3) | exact Hcur3].
Qed.

End Arc.


(** *** Filling *)

Lemma fan_cons (base : Z) (k n : nat) :
  fan base k (S n) = tri_at base k ++ fan base (S k) n.
Proof. reflexivity. Qed.

Lemma fill_points_run (base : Z) (seg : list point) :
  forall (k : nat) (vertices : list Vertex) (indices : list Z),
    fold_left (fill_point base) (imap (fun i pt => ((k + i)%nat, pt)) seg)
              (vertices, indices)
    = (vertices ++ map vertex_of seg, indices ++ fan base k (length seg)).
Proof.
  induction seg as [|pt seg IH]; intros k vertices indices.
  - simpl. unfold fan. simpl. rewrite !app_nil_r. reflexivity.
  - rewrite imap_cons. cbn [fold_left length map].
    rewrite (imap_ext _ (fun i pt => ((S k + i)%nat, pt)))
      by (intros i pt' _; simpl; f_equal; lia).
    rewrite Nat.add_0_r. unfold fill_point at 2. fold (vertex_of pt).
    rewrite fan_cons. unfold tri_at at 1.
    destruct (Z.of_nat k <? 2)%Z; rewrite IH, <- !app_assoc; reflexivity.
Qed.

Lemma fill_segs_run (ss : list (list point)) :
  forall (vertices : list Vertex) (indices : list Z) (base : Z),
    fst (fold_left fill_seg ss (vertices, indices, base))
    = (vertices ++ map vertex_of
         (concat (List.filter (fun seg => negb (Z.of_nat (length seg) <? 3)%Z) ss)),
       indices ++ fans base ss).
Proof.
  induction ss as [|seg ss IH]; intros vertices indices base.
  - simpl. rewrite !app_nil_r. reflexivity.
  - cbn [fold_left List.filter fans]. unfold fill_seg at 2.
    destruct (Z.of_nat (length seg) <? 3)%Z; simpl negb; cbv iota.
    + apply IH.
    + rewrite (fill_points_run base seg 0). rewrite IH.
      cbn [concat]. rewrite map_app, <- !app_assoc. reflexivity.
Qed.

Lemma fan_length (base : Z) (n : nat) :
  forall k, length (fan base k n) = 3 * ((k + n) - Nat.max k 2).
Proof.
  induction n as [|n IH]; intros k.
  - unfold fan. simpl. lia.
  - rewrite fan_cons, length_app, IH. unfold tri_at.
    destruct (Z.of_nat k <? 2)%Z eqn:E.
    + apply Z.ltb_lt in E. simpl. lia.
    + apply Z.ltb_ge in E. simpl. lia.
Qed.

Lemma fans_length (ss : list (list point)) :
  forall base,
    length (fans base ss)
      + 6 * length (List.filter (fun seg => negb (Z.of_nat (length seg) <? 3)%Z) ss)
    = 3 * length (concat (List.filter
                            (fun seg => negb (Z.of_nat (length seg) <? 3)%Z) ss)).
Proof.
  induction ss as [|seg ss IH]; intros base; [reflexivity|].
  cbn [fans List.filter].
  destruct (Z.of_nat (length seg) <? 3)%Z eqn:E; simpl negb; cbv iota.
  - apply IH.
  - apply Z.ltb_ge in E. cbn [concat length].
    rewrite !length_app, fan_length.
    specialize (IH (uint16_add base (uint16 (Z.of_nat (length seg))))). lia.
Qed.

(** X19.  [AppendVerticesAndIndicesForFilling] works like [append]: the
    vertices and indices given come first in the results.  After them come
    one vertex for every point of the segments of at least three points, in
    order, with the destination of the point, source 0 and colour 1, and
    three indices for each triangle of the fans: a segment of [n >= 3]
    points gives [n - 2] triangles, shorter segments give nothing. *)
Theorem AppendVerticesAndIndicesForFilling_appends
    (p : Path) (vertices : list Vertex) (indices : list Z) :
  fst (AppendVerticesAndIndicesForFilling p vertices indices)
    = vertices ++ map vertex_of (concat (filled_segs p)) /\
  exists added,
    snd (AppendVerticesAndIndicesForFilling p vertices indices)
      = indices ++ added /\
    length added + 6 * length (filled_segs p)
      = 3 * length (concat (filled_segs p)).
Proof.
  unfold AppendVerticesAndIndicesForFilling, filled_segs.
  rewrite fill_segs_run. simpl. split; [reflexivity|].
  exists (fans 0 (segs p)). split; [reflexivity | apply fans_length].
Qed.

Lemma uint16_small (n : Z) : (0 <= n < 2 ^ 16)%Z -> uint16 n = n.
Proof. intros Hn. unfold uint16. apply Z.mod_small. exact Hn. Qed.

Lemma fan_in_range (B : Z) (n : nat) (lo hi : Z) :
  (0 <= lo <= B)%Z -> (B + Z.of_nat n <= hi)%Z -> (hi <= 2 ^ 16)%Z ->
  forall k, (k <= n)%nat ->
    Forall (fun i => (lo <= i < hi)%Z) (fan B k (n - k)).
Proof.
  intros Hlo Hhi Hcap k Hk.
  remember (n - k)%nat as m eqn:Hm. revert k Hk Hm.
  induction m as [|m IH]; intros k Hk Hm; [constructor|].
  rewrite fan_cons. apply Forall_app. split.
  - unfold tri_at. destruct (Z.of_nat k <? 2)%Z eqn:E; [constructor|].
    apply Z.ltb_ge in E. unfold uint16_add.
    rewrite (uint16_small (Z.of_nat k - 1)), (uint16_small (Z.of_nat k)) by lia.
    rewrite !uint16_small by lia.
    repeat constructor; lia.
  - apply IH; lia.
Qed.

Lemma fans_in_range (ss : list (list point)) :
  forall (B hi : Z),
    (0 <= B)%Z ->
    (B + Z.of_nat (length (concat (List.filter
        (fun seg => negb (Z.of_nat (length seg) <? 3)%Z) ss))) <= hi)%Z ->
    (hi <= 2 ^ 16)%Z ->
    Forall (fun i => (0 <= i < hi)%Z) (fans (uint16 B) ss).
Proof.
  induction ss as [|seg ss IH]; intros B hi HB Hhi Hcap; [constructor|].
  cbn [fans List.filter] in *.
  destruct (Z.of_nat (length seg) <? 3)%Z eqn:E; simpl negb in *; cbv iota in *.
  - apply IH; assumption.
  - apply Z.ltb_ge in E. cbn [concat] in Hhi. rewrite length_app in Hhi.
    assert (HBs : uint16 B = B) by (apply uint16_small; lia).
    apply Forall_app. split.
    + rewrite HBs.
      pose proof (fan_in_range B (length seg) 0 hi ltac:(lia) ltac:(lia) Hcap 0%nat
                    ltac:(lia)) as Hfan.
      rewrite Nat.sub_0_r in Hfan. exact Hfan.
    + assert (Hnext : uint16_add (uint16 B) (uint16 (Z.of_nat (length seg)))
                      = uint16 (B + Z.of_nat (length seg))).
      { unfold uint16_add, uint16. symmetry. apply Zplus_mod. }
      rewrite Hnext. apply IH; lia.
Qed.

(** X20.  As long as the segments of at least three points hold no more
    than 65536 points together, every index that
    [AppendVerticesAndIndicesForFilling] adds is the position of a vertex it
    adds, counted from the first vertex it adds: the count starts at 0
    whatever number of vertices was given. *)
Theorem AppendVerticesAndIndicesForFilling_indices_in_range
    (p : Path) (vertices : list Vertex) (indices : list Z) :
  (Z.of_nat (length (concat (filled_segs p))) <= 2 ^ 16)%Z ->
  exists added,
    snd (AppendVerticesAndIndicesForFilling p vertices indices)
      = indices ++ added /\
    Forall (fun i => (0 <= i < Z.of_nat (length (concat (filled_segs p))))%Z)
           added.
Proof.
  intros Hcap. unfold AppendVerticesAndIndicesForFilling.
  rewrite fill_segs_run. simpl.
  exists (fans 0 (segs p)). split; [reflexivity|].
  apply (fans_in_range (segs p) 0%Z
           (Z.of_nat (length (concat (filled_segs p)))));
    [lia | unfold filled_segs; lia | exact Hcap].
Qed.

End PathMore.

(** ** Registered images are live *)

Section RegistryInvariant.
Context {F : Float32} {B : Backend}.
Local Open Scope go_scope.

Lemma srcs_images_Ok_state (srcs : list ptr) (s s' : state)
    (imgs : list (option gcImage)) :
  srcs_images srcs s = Ok s' imgs -> s' = s.
Proof.
  revert imgs. induction srcs as [|src srcs IH]; intros imgs Hrun.
  - injection Hrun as <- _. reflexivity.
  - destruct src as [l|]; cbn [srcs_images] in Hrun.
    + unfold bind at 1 in Hrun. unfold load in Hrun.
      destruct (heap s !! l); [|discriminate Hrun].
      unfold bind in Hrun. destruct (srcs_images srcs s) as [s1 imgs1|] eqn:E;
        [|discriminate Hrun].
      injection Hrun as <- _. exact (IH _ eq_refl).
    + unfold bind in Hrun. destruct (srcs_images srcs s) as [s1 imgs1|] eqn:E;
        [|discriminate Hrun].
      injection Hrun as <- _. exact (IH _ eq_refl).
Qed.

(** The shape of the state after a call that touched the image at [l]
    only, without unregistering anything. *)
Lemma live_registry_update (s s' : state) (l : loc) (img' : Image) (g : gcImage) :
  live_registry s ->
  heap s' = <[l := img']> (heap s) ->
  image img' = Some g ->
  images_images (theImages s') = images_images (theImages s) ->
  live_registry s'.
Proof.
  intros Hlive Hheap Hg Hreg k Hk. rewrite Hreg in Hk. rewrite Hheap.
  destruct (decide (l = k)) as [<- | Hne].
  - exists img', g. split; [apply lookup_insert_eq | exact Hg].
  - rewrite lookup_insert_ne by exact Hne. exact (Hlive k Hk).
Qed.

Lemma live_registry_NewImage (s s' : state) (w h : Z) (t : ImageType) (n : ptr) :
  live_registry s -> NewImage w h t s = Ok s' n -> live_registry s'.
Proof.
  intros Hlive Hrun.
  destruct (graphicsDriverInitialized s) eqn:Hinit.
  2:{ unfold NewImage, bind, get in Hrun. rewrite Hinit in Hrun.
      discriminate Hrun. }
  rewrite (NewImage_run s w h t Hinit) in Hrun. injection Hrun as <- _.
  intros k Hk. simpl in Hk |- *.
  destruct (decide (fresh (dom (heap s)) = k)) as [<- | Hne].
  - rewrite lookup_insert_eq. eauto.
  - rewrite lookup_insert_ne by exact Hne. apply Hlive.
    apply elem_of_union in Hk as [Hk | Hk]; [|exact Hk].
    apply elem_of_singleton in Hk. congruence.
Qed.

Lemma live_registry_Dispose (s s' : state) (i : ptr) :
  live_registry s -> Image_Dispose i s = Ok s' tt -> live_registry s'.
Proof.
  intros Hlive Hrun. destruct i as [l|]; [|discriminate Hrun].
  destruct (heap s !! l) as [img|] eqn:Hl.
  2:{ unfold Image_Dispose, images_remove in Hrun.
      unfold bind at 1 in Hrun. unfold bind at 1 in Hrun.
      rewrite images_makeStaleIfDependingOn_Ok in Hrun. cbv beta iota in Hrun.
      unfold bind, load in Hrun. simpl in Hrun. rewrite Hl in Hrun.
      discriminate Hrun. }
  destruct (image img) as [g|] eqn:Hg.
  2:{ unfold Image_Dispose, images_remove in Hrun.
      unfold bind at 1 in Hrun. unfold bind at 1 in Hrun.
      rewrite images_makeStaleIfDependingOn_Ok in Hrun. cbv beta iota in Hrun.
      unfold bind, load in Hrun. simpl in Hrun. rewrite Hl, Hg in Hrun.
      discriminate Hrun. }
  rewrite (Image_Dispose_run s l img g Hl Hg) in Hrun. injection Hrun as <-.
  intros k Hk. simpl in Hk |- *.
  apply elem_of_difference in Hk as [Hk Hne]. rewrite elem_of_singleton in Hne.
  rewrite lookup_insert_ne by congruence. exact (Hlive k Hk).
Qed.

Lemma live_registry_WritePixels (s s' : state) (i : ptr)
    (pixels : option ManagedBytes) (region : Rectangle) :
  live_registry s -> Image_WritePixels i pixels region s = Ok s' tt ->
  live_registry s'.
Proof.
  intros Hlive Hrun.
  destruct ((Rectangle_Dx region <=? 0)%Z || (Rectangle_Dy region <=? 0)%Z) eqn:Hpos.
  { unfold Image_WritePixels in Hrun. rewrite Hpos in Hrun. discriminate Hrun. }
  destruct i as [l|].
  2:{ unfold Image_WritePixels in Hrun. rewrite Hpos in Hrun. discriminate Hrun. }
  destruct (heap s !! l) as [img|] eqn:Hl.
  2:{ unfold Image_WritePixels, bind, load in Hrun. rewrite Hpos, Hl in Hrun.
      discriminate Hrun. }
  destruct (Rectangle_In region (Rect 0 0 (width img) (height img))) eqn:Hin.
  2:{ unfold Image_WritePixels in Hrun. rewrite Hpos in Hrun.
      rewrite (bind_Ok _ _ _ _ _ (load_Ok _ _ _ Hl)) in Hrun.
      rewrite Hin in Hrun. discriminate Hrun. }
  destruct (image img) as [g|] eqn:Hg.
  - rewrite (Image_WritePixels_run s l img g pixels region Hl Hg Hpos Hin) in Hrun.
    injection Hrun as <-.
    apply (live_registry_update s _ l (set_stale true img) g Hlive);
      [reflexivity | exact Hg | reflexivity].
  - unfold Image_WritePixels in Hrun. rewrite Hpos in Hrun.
    rewrite (bind_Ok _ _ _ _ _ (load_Ok _ _ _ Hl)) in Hrun.
    rewrite Hin in Hrun. simpl in Hrun.
    rewrite (bind_Ok _ _ _ _ _ (images_makeStaleIfDependingOn_Ok s l)) in Hrun.
    set (s1 := set_theImages _ s) in Hrun.
    assert (Hl1 : heap s1 !! l = Some img) by exact Hl.
    rewrite (bind_Ok _ _ _ _ _ (load_Ok _ _ _ Hl1)) in Hrun.
    rewrite Hg in Hrun. destruct pixels; discriminate Hrun.
Qed.

Lemma live_registry_DrawTriangles (s s' : state) (i : ptr) (srcs : list ptr)
    (vertices : list float32) (indices : list Z) (blend : Blend)
    (dstRegion : Rectangle) (srcRegions : list Rectangle)
    (sh : option (Shader gcShader)) (uniforms : list Z) (fillRule : FillRule) :
  live_registry s ->
  Image_DrawTriangles i srcs vertices indices blend dstRegion srcRegions sh
                      uniforms fillRule s = Ok s' tt ->
  live_registry s'.
Proof.
  intros Hlive Hrun. unfold Image_DrawTriangles in Hrun.
  destruct (decide (length vertices = 0%nat)) as [_ | _].
  { injection Hrun as <-. exact Hlive. }
  destruct i as [l|]; [|discriminate Hrun].
  rewrite (bind_Ok _ _ _ _ _ (images_makeStaleIfDependingOn_Ok s l)) in Hrun.
  set (s1 := set_theImages _ s) in Hrun.
  destruct (heap s !! l) as [img|] eqn:Hl.
  2:{ unfold bind at 1 in Hrun. unfold modify, bind, load in Hrun.
      simpl in Hrun. rewrite Hl in Hrun. discriminate Hrun. }
  assert (Hl1 : heap s1 !! l = Some img) by exact Hl.
  rewrite (bind_Ok _ _ _ _ _ (modify_Ok s1 l img _ Hl1)) in Hrun.
  set (s2 := set_heap _ s1) in Hrun.
  unfold bind at 1 in Hrun.
  destruct (srcs_images srcs s2) as [s3 imgs|] eqn:Hsrcs; [|discriminate Hrun].
  apply srcs_images_Ok_state in Hsrcs. subst s3.
  assert (Hl2 : heap s2 !! l = Some (set_stale true img)).
  { unfold s2; simpl. apply lookup_insert_eq. }
  rewrite (bind_Ok _ _ _ _ _ (load_Ok _ _ _ Hl2)) in Hrun.
  destruct sh as [sh|]; [|discriminate Hrun].
  simpl image in Hrun.
  destruct (image img) as [g|] eqn:Hg; [|discriminate Hrun].
  injection Hrun as <-.
  apply (live_registry_update s _ l (set_stale true img) g Hlive);
    [reflexivity | exact Hg | reflexivity].
Qed.

Lemma live_registry_restore (s s' : state) (i : ptr) (e : option error) :
  live_registry s -> Image_restore i s = Ok s' e -> live_registry s'.
Proof.
  intros Hlive Hrun. destruct i as [l|]; [|discriminate Hrun].
  destruct (heap s !! l) as [img|] eqn:Hl.
  2:{ unfold Image_restore, bind, load in Hrun. rewrite Hl in Hrun.
      discriminate Hrun. }
  assert (Hreg : imageType img = ImageTypeRegular -> stale img = false).
  { intros Ht. destruct (stale img) eqn:Hs; [|reflexivity].
    rewrite (Image_restore_stale_regular s l img Hl Ht Hs) in Hrun.
    discriminate Hrun. }
  destruct (Image_restore_frame s l img Hl Hreg)
    as (s1 & img' & cmds & Hrun1 & Hheap & Himgs & _ & _ & Hg & _).
  rewrite Hrun1 in Hrun. injection Hrun as <- _.
  apply (live_registry_update s s1 l img' _ Hlive Hheap Hg).
  rewrite Himgs. reflexivity.
Qed.

Lemma live_registry_Extend (s s' : state) (i : ptr) (w h : Z) (n : ptr) :
  live_registry s -> Image_Extend i w h s = Ok s' n -> live_registry s'.
Proof.
  intros Hlive Hrun. destruct i as [l|]; [|discriminate Hrun].
  destruct (heap s !! l) as [img|] eqn:Hl.
  2:{ unfold Image_Extend, bind, load in Hrun. rewrite Hl in Hrun.
      discriminate Hrun. }
  destruct ((width img >=? w)%Z && (height img >=? h)%Z) eqn:E.
  { unfold Image_Extend in Hrun.
    rewrite (bind_Ok _ _ _ _ _ (load_Ok _ _ _ Hl)) in Hrun. rewrite E in Hrun.
    injection Hrun as <- _. exact Hlive. }
  destruct (graphicsDriverInitialized s) eqn:Hinit.
  2:{ unfold Image_Extend in Hrun.
      rewrite (bind_Ok _ _ _ _ _ (load_Ok _ _ _ Hl)) in Hrun. rewrite E in Hrun.
      unfold bind at 1 in Hrun. unfold NewImage, bind, get in Hrun.
      rewrite Hinit in Hrun. discriminate Hrun. }
  assert (Hfresh : heap s !! fresh (dom (heap s)) = None).
  { apply not_elem_of_dom. apply is_fresh. }
  assert (Hne : fresh (dom (heap s)) <> l).
  { intros Heq. rewrite Heq, Hl in Hfresh. discriminate. }
  destruct (image img) as [g0|] eqn:Hg0.
  2:{ unfold Image_Extend in Hrun.
      rewrite (bind_Ok _ _ _ _ _ (load_Ok _ _ _ Hl)) in Hrun. rewrite E in Hrun.
      rewrite (bind_Ok _ _ _ _ _ (NewImage_run s w h (imageType img) Hinit)) in Hrun.
      set (s1 := mkState _ _ _ _ _) in Hrun.
      assert (Hl1 : heap s1 !! l = Some img).
      { unfold s1; simpl. rewrite lookup_insert_ne by exact Hne. exact Hl. }
      rewrite (bind_Ok _ _ _ _ _ (load_Ok _ _ _ Hl1)) in Hrun.
      rewrite Hg0 in Hrun. discriminate Hrun. }
  rewrite (Image_Extend_run s l img g0 w h Hl Hg0 Hinit E) in Hrun.
  injection Hrun as <- _.
  intros k Hk. simpl in Hk |- *.
  apply elem_of_difference in Hk as [Hk Hkl]. rewrite elem_of_singleton in Hkl.
  rewrite lookup_insert_ne by congruence.
  destruct (decide (fresh (dom (heap s)) = k)) as [<- | Hnk].
  - rewrite lookup_insert_eq. eauto.
  - rewrite lookup_insert_ne by exact Hnk. apply Hlive.
    apply elem_of_union in Hk as [Hk | Hk]; [|exact Hk].
    apply elem_of_singleton in Hk. congruence.
Qed.

(** X21.  Every registered image has a handle, and every operation that
    returns keeps it so: [NewImage] registers the image with its new
    handle, [Dispose] unregisters the image before it drops the handle,
    [Extend] does both, [restore] replaces the handle, and [WritePixels] and
    [DrawTriangles] leave handles and registry alone.  ([SwapBuffers] and
    [DumpImages] read the handle of every registered image.) *)
Theorem live_registry_preserved (s s' : state) :
  live_registry s ->
  (forall w h t n, NewImage w h t s = Ok s' n -> live_registry s') /\
  (forall i, Image_Dispose i s = Ok s' tt -> live_registry s') /\
  (forall i w h n, Image_Extend i w h s = Ok s' n -> live_registry s') /\
  (forall i e, Image_restore i s = Ok s' e -> live_registry s') /\
  (forall i pixels region,
     Image_WritePixels i pixels region s = Ok s' tt -> live_registry s') /\
  (forall i srcs vertices indices blend dstRegion srcRegions sh uniforms fillRule,
     Image_DrawTriangles i srcs vertices indices blend dstRegion srcRegions sh
                         uniforms fillRule s = Ok s' tt ->
     live_registry s').
Proof.
  intros Hlive.
  split; [intros; eapply live_registry_NewImage; eauto|].
  split; [intros; eapply live_registry_Dispose; eauto|].
  split; [intros; eapply live_registry_Extend; eauto|].
  split; [intros; eapply live_registry_restore; eauto|].
  split; [intros; eapply live_registry_WritePixels; eauto|].
  intros; eapply live_registry_DrawTriangles; eauto.
Qed.

End RegistryInvariant.

(** ** Closed examples *)

#[local] Existing Instance exampleFloat32.
#[local] Existing Instance exampleBackend.

(** C1, as stated, fails: writing a buffer to a regular image leaves its
    [basePixels] without any record; in particular they are not what
    [AddOrReplace] would have made of them. *)
Lemma WritePixels_records_counterexample :
  let s := exampleState ImageTypeRegular false in
  let region := Rect 0 0 2 2 in
  let pixels := replicate 16 255%Z in
  valid_region region 4 4 /\
  exists s' img',
    Image_WritePixels (Some 1%positive) (Some pixels) region s = Ok s' tt /\
    heap s' !! 1%positive = Some img' /\
    Pixels_records (basePixels img') = [] /\
    basePixels img' <>
      Pixels_AddOrReplace (basePixels (exampleImage ImageTypeRegular false))
                          pixels region.
Proof.
  split.
  - split; [reflexivity|]. split; [reflexivity|].
    intros px py; simpl; lia.
  - eexists _, _. split; [vm_compute; reflexivity|].
    split; [vm_compute; reflexivity|].
    split; [reflexivity|]. vm_compute. discriminate.
Qed.

Lemma Image_WritePixels_forwards_and_keeps_records_witness :
  exists s' img',
    Image_WritePixels (Some 1%positive) None (Rect 0 0 2 2)
      (exampleState ImageTypeRegular false) = Ok s' tt /\
    heap s' !! 1%positive = Some img' /\
    basePixels img' = mkPixels None /\
    stale img' = true /\
    gc_commands s' = [write_command exampleHandle None (Rect 0 0 2 2)].
Proof.
  apply (Image_WritePixels_forwards_and_keeps_records
           (exampleState ImageTypeRegular false) 1%positive
           (exampleImage ImageTypeRegular false) exampleHandle None
           (Rect 0 0 2 2)).
  - reflexivity.
  - reflexivity.
  - simpl; lia.
  - simpl; lia.
  - split; [reflexivity|]. split; [reflexivity|]. intros px py; simpl; lia.
Defined.

(** C3: the code at the failing input.  A first [WritePixels] over
    [(0,0)-(2,2)] on a fresh regular image sets the stale flag, and leaves
    [staleRegions] empty: the region is not added. *)
Lemma WritePixels_staleRegions_not_extended :
  let s := exampleState ImageTypeRegular false in
  let region := Rect 0 0 2 2 in
  valid_region region 4 4 /\
  exists s' img',
    Image_WritePixels (Some 1%positive) None region s = Ok s' tt /\
    heap s' !! 1%positive = Some img' /\
    stale img' = true /\
    staleRegions img' = [] /\
    region ∉ staleRegions img'.
Proof.
  split.
  - split; [reflexivity|]. split; [reflexivity|].
    intros px py; simpl; lia.
  - eexists _, _. split; [vm_compute; reflexivity|].
    split; [vm_compute; reflexivity|].
    split; [reflexivity|]. split; [reflexivity|].
    simpl. apply not_elem_of_nil.
Qed.

(** C2, as stated, fails: [restore] on a volatile image whose stale flag is
    set returns, and the flag is still set. *)
Lemma restore_volatile_still_stale_counterexample :
  exists s' img',
    Image_restore (Some 1%positive) (exampleState ImageTypeVolatile true)
      = Ok s' None /\
    heap s' !! 1%positive = Some img' /\
    stale img' = true.
Proof.
  eexists _, _. split; [vm_compute; reflexivity|].
  split; [vm_compute; reflexivity|]. reflexivity.
Qed.

Lemma Image_restore_stale_after_witness :
  exists s' img',
    Image_restore (Some 1%positive) (exampleState ImageTypeScreen true)
      = Ok s' None /\
    heap s' !! 1%positive = Some img' /\
    stale img' = false.
Proof.
  assert (Hrun : { s' | Image_restore (Some 1%positive)
                          (exampleState ImageTypeScreen true) = Ok s' None }).
  { eexists. vm_compute. reflexivity. }
  destruct Hrun as [s' Hrun].
  destruct (Image_restore_stale_after
              (exampleState ImageTypeScreen true) s' 1%positive
              (exampleImage ImageTypeScreen true) None eq_refl Hrun)
    as (_ & img' & Hl & Hs).
  exists s', img'. split; [exact Hrun|]. split; [exact Hl | exact Hs].
Defined.

Lemma Image_restore_panics_on_stale_regular_only_witness :
  Image_restore (Some 1%positive) (exampleState ImageTypeRegular true)
    = Panicked PanicStaleRestore.
Proof.
  exact (Image_restore_panics_on_stale_regular_only
           (exampleState ImageTypeRegular true) 1%positive
           (exampleImage ImageTypeRegular true) eq_refl).
Defined.

Lemma Image_WritePixels_panics_iff_invalid_region_witness :
  (exists p, Image_WritePixels (Some 1%positive) None (Rect 0 0 5 5)
               (exampleState ImageTypeRegular false) = Panicked p /\
             region_fault (Rect 0 0 5 5) p) <->
  ~ valid_region (Rect 0 0 5 5) 4 4.
Proof.
  apply (Image_WritePixels_panics_iff_invalid_region
           (exampleState ImageTypeRegular false) 1%positive
           (exampleImage ImageTypeRegular false) None (Rect 0 0 5 5)).
  - reflexivity.
  - simpl; lia.
  - simpl; lia.
Defined.

Lemma Image_Extend_covered_or_replaced_witness :
  let s := exampleState ImageTypeRegular false in
  Image_Extend (Some 1%positive) 2 2 s = Ok s (Some 1%positive) /\
  exists s' n, Image_Extend (Some 1%positive) 8 8 s = Ok s' (Some n) /\
               n <> 1%positive /\
               heap s' !! 1%positive
                 = Some (disposed (exampleImage ImageTypeRegular false)).
Proof.
  intros s. split.
  - apply (Image_Extend_covered_or_replaced s 1%positive
             (exampleImage ImageTypeRegular false) 2 2 eq_refl).
    simpl; lia.
  - destruct (proj2 (Image_Extend_covered_or_replaced s 1%positive
                       (exampleImage ImageTypeRegular false) 8 8 eq_refl))
      with (g0 := exampleHandle)
      as (s' & n & g & Hrun & Hne & _ & _ & _ & Hold & _).
    + simpl; lia.
    + reflexivity.
    + reflexivity.
    + exists s', n. split; [exact Hrun|]. split; [exact Hne | exact Hold].
Defined.

Lemma flattening_depth_bounded_witness :
  let p := vector.mkPath [] (vector.mkPoint 0%Z 0%Z) in
  (exists r, vector.quadTo 12 p 50%Z 100%Z 100%Z 0%Z 0 = Some r) /\
  (exists r, vector.cubicTo 12 p 30%Z 100%Z 70%Z 100%Z 100%Z 0%Z 0 = Some r) /\
  ((10 < 0)%Z ->
   vector.quadTo 12 p 50%Z 100%Z 100%Z 0%Z 0 = Some (vector.Returns p) /\
   vector.cubicTo 12 p 30%Z 100%Z 70%Z 100%Z 100%Z 0%Z 0
     = Some (vector.Returns p)).
Proof.
  intros p.
  apply (flattening_depth_bounded 12 p 50%Z 100%Z 100%Z 0%Z 100%Z 0%Z 0).
  - lia.
  - lia.
Defined.

(** *** Instances of the further results *)

Lemma appendRegionRemovingDuplicates_irredundant_witness :
  irredundant (appendRegionRemovingDuplicates [Rect 0 0 2 2; Rect 5 5 6 6]
                                              (Rect 0 0 3 3)).
Proof.
  apply (appendRegionRemovingDuplicates_irredundant
           [Rect 0 0 2 2; Rect 5 5 6 6] (Rect 0 0 3 3)).
  simpl. repeat split; repeat constructor.
Defined.

Lemma appendRegionRemovingDuplicates_covers_witness :
  exists r', r' ∈ appendRegionRemovingDuplicates [Rect 0 0 2 2; Rect 5 5 6 6]
                                                  (Rect 0 0 3 3) /\
             Rectangle_In (Rect 0 0 2 2) r' = true.
Proof.
  apply (appendRegionRemovingDuplicates_covers
           [Rect 0 0 2 2; Rect 5 5 6 6] (Rect 0 0 3 3) (Rect 0 0 2 2)).
  left. apply list_elem_of_In. left. reflexivity.
Defined.

Lemma Image_DrawTriangles_marks_stale_and_draws_witness :
  exists s',
    Image_DrawTriangles (Some 1%positive) [Some 1%positive; None]
      (([1%Z; 2%Z; 3%Z] : list Z) : list (@float32 exampleFloat32)) [0%Z; 1%Z; 2%Z] BlendCopy (Rect 0 0 2 2) [] 
      (Some NearestFilterShader) [] FillRuleFillAll
      (exampleState ImageTypeRegular false) = Ok s' tt /\
    heap s' !! 1%positive
      = Some (set_stale true (exampleImage ImageTypeRegular false)).
Proof.
  destruct (Image_DrawTriangles_marks_stale_and_draws
              (exampleState ImageTypeRegular false) 1%positive
              (exampleImage ImageTypeRegular false) exampleHandle
              [Some 1%positive; None] (([1%Z; 2%Z; 3%Z] : list Z) : list (@float32 exampleFloat32)) [0%Z; 1%Z; 2%Z]
              BlendCopy (Rect 0 0 2 2) [] NearestFilterShader [] FillRuleFillAll)
    as (s' & Hrun & Hl & _).
  - reflexivity.
  - reflexivity.
  - discriminate.
  - constructor; [simpl; eauto | constructor; [exact I | constructor]].
  - exists s'. split; [exact Hrun | exact Hl].
Defined.

Lemma Image_restore_after_WritePixels_panics_witness :
  exists s',
    Image_WritePixels (Some 1%positive) None (Rect 0 0 2 2)
      (exampleState ImageTypeRegular false) = Ok s' tt /\
    Image_restore (Some 1%positive) s' = Panicked PanicStaleRestore.
Proof.
  assert (Hrun : { s' | Image_WritePixels (Some 1%positive) None (Rect 0 0 2 2)
                          (exampleState ImageTypeRegular false) = Ok s' tt }).
  { eexists. vm_compute. reflexivity. }
  destruct Hrun as [s' Hrun]. exists s'. split; [exact Hrun|].
  apply (Image_restore_after_WritePixels_panics
           (exampleState ImageTypeRegular false) s' 1%positive
           (exampleImage ImageTypeRegular false) None (Rect 0 0 2 2)).
  - reflexivity.
  - reflexivity.
  - exact Hrun.
Defined.

Lemma Image_Dispose_unregisters_and_resets_witness :
  exists s' img',
    Image_Dispose (Some 1%positive) (exampleState ImageTypeRegular true)
      = Ok s' tt /\
    heap s' !! 1%positive = Some img' /\
    image img' = None /\ stale img' = false /\
    1%positive ∉ images_images (theImages s').
Proof.
  destruct (Image_Dispose_unregisters_and_resets
              (exampleState ImageTypeRegular true) 1%positive
              (exampleImage ImageTypeRegular true) exampleHandle)
    as (s' & img' & Hrun & Hl & Himg & _ & Hstale & _ & _ & _ & _ & _ & Hreg & _).
  - reflexivity.
  - reflexivity.
  - exists s', img'. repeat split; assumption.
Defined.



Lemma Image_Extend_exact_size_witness :
  exists s' n img',
    Image_Extend (Some 1%positive) 8 2 (exampleState ImageTypeRegular false)
      = Ok s' (Some n) /\
    heap s' !! n = Some img' /\
    width img' = 8%Z /\ height img' = 2%Z /\
    ((2 < 4)%Z -> (height img' < 4)%Z).
Proof.
  apply (Image_Extend_exact_size (exampleState ImageTypeRegular false)
           1%positive (exampleImage ImageTypeRegular false) exampleHandle 8 2).
  - reflexivity.
  - reflexivity.
  - simpl. lia.
Defined.

Lemma Image_restore_after_Extend_panics_witness :
  exists s' n,
    Image_Extend (Some 1%positive) 8 8 (exampleState ImageTypeRegular false)
      = Ok s' (Some n) /\
    Image_restore (Some n) s' = Panicked PanicStaleRestore.
Proof.
  apply (Image_restore_after_Extend_panics
           (exampleState ImageTypeRegular false) 1%positive
           (exampleImage ImageTypeRegular false) exampleHandle 8 8).
  - reflexivity.
  - reflexivity.
  - reflexivity.
  - reflexivity.
  - simpl. lia.
Defined.

Lemma LineTo_keeps_well_formed_witness :
  let p := vector.mkPath [] (vector.mkPoint 1%Z 2%Z) in
  exists p',
    vector.LineTo p 3%Z 4%Z = vector.Returns p' /\
    well_formed p' /\ vector.segs p' <> [] /\
    vector.cur p' = vector.mkPoint 3%Z 4%Z.
Proof.
  intros p.
  destruct (@LineTo_keeps_well_formed exampleFloat32 p 3%Z 4%Z)
    as (p' & Hrun & Hwf & Hne & Hcur & _).
  - constructor.
  - exists p'. repeat split; assumption.
Defined.

Lemma flattening_appends_at_most_1024_points_witness :
  let p := vector.mkPath [[vector.mkPoint 0%Z 0%Z]] (vector.mkPoint 0%Z 0%Z) in
  (exists p' added,
     vector.QuadTo 12 p 50%Z 100%Z 100%Z 0%Z = Some (vector.Returns p') /\
     well_formed p' /\ appends_to_last p p' added /\ length added <= 1024) /\
  (exists p' added,
     vector.CubicTo 12 p 50%Z 100%Z 100%Z 0%Z 150%Z 50%Z
       = Some (vector.Returns p') /\
     well_formed p' /\ appends_to_last p p' added /\ length added <= 1024).
Proof.
  intros p.
  apply (@flattening_appends_at_most_1024_points exampleFloat32 12 p 50%Z
           100%Z 100%Z 0%Z 150%Z 50%Z).
  - lia.
  - constructor; [discriminate | constructor].
  - discriminate.
Defined.

Lemma flattening_with_nan_leaves_path_witness :
  let p := @vector.mkPath nanFloat32
             [[@vector.mkPoint nanFloat32 (Some 0%Z) (Some 0%Z)]]
             (@vector.mkPoint nanFloat32 (Some 0%Z) (Some 0%Z)) in
  @vector.QuadTo nanFloat32 12 p None (Some 100%Z) (Some 100%Z) (Some 0%Z)
    = Some (vector.Returns p) /\
  @vector.CubicTo nanFloat32 12 p None (Some 100%Z) (Some 100%Z) (Some 0%Z)
                  (Some 150%Z) (Some 50%Z)
    = Some (vector.Returns p).
Proof.
  intros p.
  apply (@flattening_with_nan_leaves_path nanFloat32 None).
  - intros a. reflexivity.
  - intros [a|]; reflexivity.
  - intros a. reflexivity.
  - intros [a|]; reflexivity.
  - intros a. reflexivity.
  - intros [a|]; reflexivity.
  - lia.
Defined.

Lemma ArcTo_ends_at_destination_witness :
  let p := vector.mkPath [] (vector.mkPoint 0%Z 0%Z) in
  exists p',
    @ArcTo exampleFloat32 exampleMath 12 p 10%Z 0%Z 10%Z 10%Z 5%Z
      = Some (vector.Returns p') /\
    well_formed p' /\ vector.segs p' <> [] /\
    vector.cur p' = vector.mkPoint 10%Z 10%Z.
Proof.
  intros p.
  apply (@ArcTo_ends_at_destination exampleFloat32 exampleMath 12 p
           10%Z 0%Z 10%Z 10%Z 5%Z).
  - lia.
  - constructor.
Defined.

Lemma AppendVerticesAndIndicesForFilling_indices_in_range_witness :
  let p := vector.mkPath
             [[vector.mkPoint 0%Z 0%Z; vector.mkPoint 4%Z 0%Z;
               vector.mkPoint 4%Z 4%Z; vector.mkPoint 0%Z 4%Z]]
             (vector.mkPoint 0%Z 4%Z) in
  exists added,
    snd (AppendVerticesAndIndicesForFilling p [] [7%Z]) = [7%Z] ++ added /\
    Forall (fun i => (0 <= i < Z.of_nat (length (concat (filled_segs p))))%Z)
           added.
Proof.
  intros p.
  apply (@AppendVerticesAndIndicesForFilling_indices_in_range exampleFloat32
           p [] [7%Z]).
  vm_compute. discriminate.
Defined.

Lemma live_registry_preserved_witness :
  exists s' n,
    NewImage 8 8 ImageTypeRegular (exampleState ImageTypeRegular false)
      = Ok s' n /\
    live_registry s'.
Proof.
  assert (Hrun : { r | NewImage 8 8 ImageTypeRegular
                         (exampleState ImageTypeRegular false)
                       = Ok (fst r) (snd r) }).
  { eexists (_, _). vm_compute. reflexivity. }
  destruct Hrun as [[s' n] Hrun]. simpl in Hrun.
  exists s', n. split; [exact Hrun|].
  assert (Hlive : live_registry (exampleState ImageTypeRegular false)).
  { intros l Hl. simpl in Hl. apply elem_of_singleton in Hl. subst l.
    exists (exampleImage ImageTypeRegular false), exampleHandle.
    split; reflexivity. }
  exact (proj1 (live_registry_preserved
                  (exampleState ImageTypeRegular false) s' Hlive)
               8%Z 8%Z ImageTypeRegular n Hrun).
Defined.
